(** * sharp.cc: the resize pipeline of node-image-handler

    A shallow embedding of [src/sharp.cc].  The file has three parts:

    - the values the C++ code computes with: [int] (32-bit, two's
      complement), [double] (rationals rounded by a [Rounding]), and
      [std::string];
    - the geometry computed by [ResizeAsync] (scale factor, integer shrink,
      residual scale, crop and embed rectangles);
    - the worker itself, [ResizeAsync], as a program over the calls it makes
      into libvips, together with [Resize] and [ResizeAsyncAfter], the two
      ends that run on the JavaScript thread.

    libvips, libuv and V8 are not part of the repository.  The calls into
    libvips are kept as calls: a program is run against an arbitrary library
    (any function from a call and a library state to a reply and a new state),
    and the theorems hold for every such library. *)

From Stdlib Require Import ZArith QArith Qround Qpower Qminmax Bool List Lia Lqa.
From Stdlib.Strings Require Import Ascii String Byte.
Import ListNotations.

Local Open Scope Z_scope.

(** ** 32-bit [int] *)

Module Int.

Definition INT_MIN : Z := - 2 ^ 31.
Definition INT_MAX : Z := 2 ^ 31 - 1.

(** Values an [int] can hold. *)
Definition in_range (z : Z) : Prop := INT_MIN <= z <= INT_MAX.

(** Two's-complement wrap-around.  Signed overflow is undefined in C++; the
    model wraps, as the hardware does, and the lemmas below show where no
    wrap happens. *)
Definition wrap (z : Z) : Z := (z + 2 ^ 31) mod 2 ^ 32 - 2 ^ 31.

Definition add (a b : Z) : Z := wrap (a + b).
Definition sub (a b : Z) : Z := wrap (a - b).
(** [/] on [int] truncates towards zero. *)
Definition div (a b : Z) : Z := wrap (Z.quot a b).

(** [std::max] and [std::min] as <algorithm> defines them. *)
Definition max (a b : Z) : Z := if a <? b then b else a.
Definition min (a b : Z) : Z := if b <? a then b else a.

End Int.

(** ** [double] *)

(** A [double] that is neither infinite nor NaN is a rational.  An arithmetic
    operation returns the exact result rounded into the format.  The rounding
    is a parameter: what the development uses of it is that it is monotone
    and leaves alone the numbers that are already in the binary64 format. *)

(** [2^e], for any integer [e]. *)
Definition pow2 (e : Z) : Q := (2 ^ e)%Q.

(** The rationals a binary64 [double] represents: 53 bits of significand,
    exponents from -1074 to 971. *)
Definition binary64 (q : Q) : Prop :=
  exists m e : Z,
    Z.abs m < 2 ^ 53 /\ -1074 <= e <= 971 /\ (q == inject_Z m * pow2 e)%Q.

Class Rounding := {
  round : Q -> Q;
  round_monotone : forall a b : Q, (a <= b)%Q -> (round a <= round b)%Q;
  round_binary64 : forall q : Q, binary64 q -> (round q == q)%Q
}.

Module Double.
Section WithRounding.

Context {R : Rounding}.

(** [static_cast<double>(int)]: exact, every 32-bit integer is a [double]. *)
Definition of_int (z : Z) : Q := inject_Z z.

(** [a / b] on [double].  The divisors of sharp.cc are at least 1. *)
Definition div (a b : Q) : Q := round (a / b)%Q.

Definition ltb (a b : Q) : bool := negb (Qle_bool b a).

Definition max (a b : Q) : Q := if ltb a b then b else a.
Definition min (a b : Q) : Q := if ltb b a then b else a.

(** [floor] from <math.h>: the result is again a [double]. *)
Definition floor (a : Q) : Q := inject_Z (Qfloor a).

(** Conversion of a [double] to [int]: truncation towards zero. *)
Definition to_int (a : Q) : Z := Int.wrap (Z.quot (Qnum a) (Z.pos (Qden a))).

End WithRounding.
End Double.

(** *** Round to nearest, ties to even *)

(** The rounding of IEEE 754 arithmetic in its default mode, on rationals.
    The exponent is not bounded above: the quotients of sharp.cc are quotients
    of two [int]s and stay far from the overflow threshold. *)

(** The integer [k] with [2^k <= q < 2^(k+1)], for a positive [q]. *)
Definition ilog2 (q : Q) : Z :=
  let k := Z.log2 (Qnum q) - Z.log2 (Z.pos (Qden q)) in
  if Qle_bool (pow2 k) q then k else k - 1.

(** The nearest integer; of two nearest integers, the even one. *)
Definition nearest_even (x : Q) : Z :=
  let f := Qfloor x in
  match (x - inject_Z f ?= 1 # 2)%Q with
  | Lt => f
  | Gt => f + 1
  | Eq => if Z.even f then f else f + 1
  end.

(** The exponent of the last bit of the significand of a positive [q]:
    53 bits for a normal number, the fixed exponent -1074 below. *)
Definition exponent (q : Q) : Z := Z.max (ilog2 q - 52) (-1074).

Definition round_positive (q : Q) : Q :=
  (inject_Z (nearest_even (q / pow2 (exponent q))) * pow2 (exponent q))%Q.

Definition round_nearest (q : Q) : Q :=
  match (q ?= 0)%Q with
  | Eq => 0%Q
  | Gt => round_positive q
  | Lt => (- round_positive (- q))%Q
  end.

(** *** Exact arithmetic *)

(** Exact arithmetic is a rounding: the one that never rounds.  It is the
    reading of the specification, which speaks of real-valued division. *)
Definition exact_rounding : Rounding :=
  {| round := fun q => q;
     round_monotone := fun _ _ H => H;
     round_binary64 := fun q _ => Qeq_refl q |}.

(** ** [std::string] *)

Local Open Scope string_scope.

(** [str.compare(pos, len, other) == 0]: the [len] characters of [str] from
    [pos] are equal to [other]. *)
Definition compare_eq0 (str : string) (pos len : nat) (other : string) : bool :=
  String.eqb (substring pos len str) other.

(** sharp.cc, lines 44-46. *)
Definition EndsWith (str end_ : string) : bool :=
  (String.length end_ <=? String.length str)%nat
  && compare_eq0 str (String.length str - String.length end_) (String.length end_) end_.

(** [needle] occurs in [hay]. *)
Definition contains (hay needle : string) : Prop :=
  exists pre post : string, hay = pre ++ needle ++ post.

(** ** The geometry of [ResizeAsync] (sharp.cc, lines 77-82 and 99-113) *)

Module Geometry.
Section WithRounding.

Context {R : Rounding}.

(** What the geometry is computed from: the decoded image's [Xsize] and
    [Ysize], and the baton's [cols], [rows] and [crop]. *)
Variables (Xsize Ysize cols rows : Z) (crop : bool).

(** Line 77. *)
Definition xfactor : Q := Double.div (Double.of_int Xsize) (Double.of_int (Int.max cols 1)).
(** Line 78. *)
Definition yfactor : Q := Double.div (Double.of_int Ysize) (Double.of_int (Int.max rows 1)).
(** Line 79. *)
Definition chosen_factor : Q :=
  if crop then Double.min xfactor yfactor else Double.max xfactor yfactor.
(** Line 80. *)
Definition factor : Q := Double.max chosen_factor 1%Q.
(** Line 81. *)
Definition shrink : Z := Double.to_int (Double.floor factor).
(** Line 82. *)
Definition residual : Q := Double.div (Double.of_int shrink) factor.

End WithRounding.

(** A rectangle: the four [int]s handed to [im_extract_area] and
    [im_embed]. *)
Record Rect := { left : Z; top : Z; width : Z; height : Z }.

(** Lines 100-103: the area extracted from the resampled image [img]. *)
Definition crop_rect (img_Xsize img_Ysize cols rows : Z) : Rect :=
  let width := Int.min img_Xsize cols in
  let height := Int.min img_Ysize rows in
  let left := Int.div (Int.add (Int.sub img_Xsize width) 1) 2 in
  let top := Int.div (Int.add (Int.sub img_Ysize height) 1) 2 in
  {| left := left; top := top; width := width; height := height |}.

(** Lines 111-113: where the resampled image is put on the canvas, and the
    size of the canvas. *)
Definition embed_rect (img_Xsize img_Ysize cols rows : Z) : Rect :=
  let left := Int.div (Int.sub cols img_Xsize) 2 in
  let top := Int.div (Int.sub rows img_Ysize) 2 in
  {| left := left; top := top; width := cols; height := rows |}.

End Geometry.


(** ** The baton and the JavaScript ends (sharp.cc, lines 29-42, 165-211) *)

(** A V8 function handle; a [Persistent] handle starts empty. *)
Inductive JsFunction : Type :=
| js_empty
| js_function (handle : nat).

(** [struct ResizeBaton].  [buffer_out] is the memory the pointer refers to;
    [buffer_out_len] is a [size_t]. *)
Record ResizeBaton := {
  src : string;
  dst : string;
  buffer_out : list byte;
  buffer_out_len : N;
  cols : Z;
  rows : Z;
  crop : bool;
  embed : Z;
  err : string;
  callback : JsFunction
}.

(** [(baton->err).append(text)]. *)
Definition err_append (baton : ResizeBaton) (text : string) : ResizeBaton :=
  {| src := src baton; dst := dst baton;
     buffer_out := buffer_out baton; buffer_out_len := buffer_out_len baton;
     cols := cols baton; rows := rows baton; crop := crop baton; embed := embed baton;
     err := err baton ++ text; callback := callback baton |}.

(** Assignment through [&baton->buffer_out] and [&baton->buffer_out_len]. *)
Definition set_buffer_out (baton : ResizeBaton) (buf : list byte) (len : N) : ResizeBaton :=
  {| src := src baton; dst := dst baton;
     buffer_out := buf; buffer_out_len := len;
     cols := cols baton; rows := rows baton; crop := crop baton; embed := embed baton;
     err := err baton; callback := callback baton |}.

(** What [new ResizeBaton] finds in the members its constructor does not
    initialise: the constructor (line 41) only sets [buffer_out_len], and the
    three [std::string]s start empty.  The other members are indeterminate;
    the model takes their contents from the allocation. *)
Record Indeterminate := {
  ind_buffer_out : list byte;
  ind_cols : Z;
  ind_rows : Z;
  ind_crop : bool;
  ind_embed : Z
}.

(** Line 190. *)
Definition new_ResizeBaton (fresh : Indeterminate) : ResizeBaton :=
  {| src := ""; dst := "";
     buffer_out := ind_buffer_out fresh; buffer_out_len := 0%N;
     cols := ind_cols fresh; rows := ind_rows fresh;
     crop := ind_crop fresh; embed := ind_embed fresh;
     err := ""; callback := js_empty |}.

(** [std::string = const char *] (lines 191-192): the assignment reads a C
    string, so it takes the bytes up to the first NUL byte and drops the
    rest. *)
Fixpoint from_char_ptr (s : string) : string :=
  match s with
  | EmptyString => EmptyString
  | String c s' => if Ascii.eqb c zero then EmptyString else String c (from_char_ptr s')
  end.

(** The six arguments of the JavaScript call, after V8's conversions
    ([ToString], [Int32Value], the cast to [Function]).  [arg_src] and
    [arg_dst] are the bytes that [String::Utf8Value] holds: a JavaScript
    string may contain U+0000, so these may contain a NUL byte. *)
Record Arguments := {
  arg_src : string;
  arg_dst : string;
  arg_cols : Z;
  arg_rows : Z;
  arg_canvas : string;
  arg_callback : JsFunction
}.

(** Lines 196-204: the canvas code decides which members are written. *)
Definition canvas_crop (canvas : string) (before : bool) : bool :=
  if String.eqb canvas "c" then true
  else if String.eqb canvas "w" then false
  else if String.eqb canvas "b" then false
  else before.

Definition canvas_embed (canvas : string) (before : Z) : Z :=
  if String.eqb canvas "c" then before
  else if String.eqb canvas "w" then 4
  else if String.eqb canvas "b" then 0
  else before.

(** Lines 190-208: the baton that [Resize] hands to [uv_queue_work]. *)
Definition Resize (fresh : Indeterminate) (args : Arguments) : ResizeBaton :=
  let baton := new_ResizeBaton fresh in
  {| src := from_char_ptr (arg_src args); dst := from_char_ptr (arg_dst args);
     buffer_out := buffer_out baton; buffer_out_len := buffer_out_len baton;
     cols := arg_cols args; rows := arg_rows args;
     crop := canvas_crop (arg_canvas args) (crop baton);
     embed := canvas_embed (arg_canvas args) (embed baton);
     err := err baton; callback := arg_callback args |}.

(** One [callback->Call(global, 2, argv)]: the function called and the two
    arguments, [None] for JavaScript's [null]. *)
Record CallbackCall := {
  called : JsFunction;
  argv0 : option string;
  argv1 : option (list byte)
}.

(** [!baton->err.empty()]. *)
Definition err_nonempty (baton : ResizeBaton) : bool :=
  negb (String.length (err baton) =? 0)%nat.

(** Lines 165-185: the calls of the completion callback made by
    [ResizeAsyncAfter].  [Buffer::New(data, len)] copies [len] bytes. *)
Definition ResizeAsyncAfter (baton : ResizeBaton) : list CallbackCall :=
  let argv0 := if err_nonempty baton then Some (err baton) else None in
  let argv1 :=
    if err_nonempty baton then None
    else if (0 <? buffer_out_len baton)%N
         then Some (firstn (N.to_nat (buffer_out_len baton)) (buffer_out baton))
         else None in
  [ {| called := callback baton; argv0 := argv0; argv1 := argv1 |} ].


(** ** libvips as seen from sharp.cc *)

(** [VipsImage]: the representation belongs to libvips; sharp.cc reads
    [Xsize] and [Ysize]. *)
Class Vips := {
  VipsImage : Type;
  Xsize : VipsImage -> Z;
  Ysize : VipsImage -> Z
}.

(** [INTMASK], the integer convolution mask of libvips. *)
Record INTMASK := {
  xsize : Z;
  ysize : Z;
  scale : Z;
  offset : Z;
  coeff : list Z;
  filename : string
}.

(** [im_create_imaskv(filename, xsize, ysize, ...)]: a mask with the given
    coefficients, scale 1 and offset 0. *)
Definition im_create_imaskv (name : string) (xs ys : Z) (coefficients : list Z) : INTMASK :=
  {| xsize := xs; ysize := ys; scale := 1; offset := 0;
     coeff := coefficients; filename := name |}.

(** [mask->scale = s]. *)
Definition set_scale (mask : INTMASK) (s : Z) : INTMASK :=
  {| xsize := xsize mask; ysize := ysize mask; scale := s; offset := offset mask;
     coeff := coeff mask; filename := filename mask |}.

(** Lines 122-126. *)
Definition sharpen : INTMASK :=
  set_scale
    (im_create_imaskv "sharpen" 3 3
       [ -1; -1; -1;
         -1; 32; -1;
         -1; -1; -1 ])
    24.

Inductive VipsInterpolate : Type := vips_interpolate_bilinear_static.

(** The value of one optional argument of a save call ([TRUE] is 1). *)
Definition TRUE : Z := 1.
Definition FALSE : Z := 0.

Section Calls.

Context {V : Vips}.

(** The calls sharp.cc makes, with the arguments it passes.  An output
    parameter is not an argument here; it comes back in the reply. *)
Inductive VipsCall : Type :=
| vips_image_new_mode (file mode : string)
| vips_jpegload (file : string) (in_before : option VipsImage)
| vips_pngload (file : string) (in_before : option VipsImage)
| im_open_local_array (parent : VipsImage) (n : Z) (file mode : string)
| im_shrink (img : VipsImage) (xshrink yshrink : Q)
| im_affinei_all (img : VipsImage) (interpolate : VipsInterpolate) (a b c d dx dy : Q)
| im_extract_area (img : VipsImage) (left top width height : Z)
| im_embed (img : VipsImage) (type_ x y width height : Z)
| im_conv (img : VipsImage) (mask : INTMASK)
| vips_jpegsave_buffer (img : VipsImage) (buf_before : list byte) (len_before : N)
                       (options : list (string * Z))
| vips_pngsave_buffer (img : VipsImage) (buf_before : list byte) (len_before : N)
                      (options : list (string * Z))
| vips_foreign_save (img : VipsImage) (file : string) (options : list (string * Z))
| vips_error_buffer
| vips_error_clear.

(** What comes back from a call: the [int] result (0 on success) and the
    contents of the output parameters after the call. *)
Definition reply (c : VipsCall) : Type :=
  match c with
  | vips_image_new_mode _ _ => option VipsImage
  | vips_jpegload _ _ | vips_pngload _ _ => option VipsImage
  | im_open_local_array _ _ _ _ => Z
  | im_shrink _ _ _ | im_affinei_all _ _ _ _ _ _ _ _
  | im_extract_area _ _ _ _ _ | im_embed _ _ _ _ _ _ | im_conv _ _ => Z * VipsImage
  | vips_jpegsave_buffer _ _ _ _ | vips_pngsave_buffer _ _ _ _ => Z * (list byte * N)
  | vips_foreign_save _ _ _ => Z
  | vips_error_buffer => string
  | vips_error_clear => unit
  end.

(** A program: a result, or a call and what to do with its reply. *)
Inductive Prog (A : Type) : Type :=
| Ret (a : A)
| Call (c : VipsCall) (k : reply c -> Prog A).

Arguments Ret {A} a.
Arguments Call {A} c k.

Fixpoint bind {A B : Type} (p : Prog A) (f : A -> Prog B) : Prog B :=
  match p with
  | Ret a => f a
  | Call c k => Call c (fun r => bind (k r) f)
  end.

Definition call (c : VipsCall) : Prog (reply c) := Call c Ret.

(** A call together with its reply. *)
Record Event := { ev_call : VipsCall; ev_reply : reply ev_call }.

(** A library with state [W] answers every call. *)
Definition Library (W : Type) : Type := forall c : VipsCall, W -> reply c * W.

(** Running a program against a library: the result, the library's final
    state and the calls made, in order. *)
Fixpoint run {W A : Type} (lib : Library W) (p : Prog A) (w : W) : A * W * list Event :=
  match p with
  | Ret a => (a, w, [])
  | Call c k =>
      let (r, w1) := lib c w in
      let '(a, w2, t) := run lib (k r) w1 in
      (a, w2, {| ev_call := c; ev_reply := r |} :: t)
  end.

(** [post] holds of the result and the calls of every run of [p], whatever
    the library replies. *)
Fixpoint always {A : Type} (p : Prog A) (post : list Event -> A -> Prop) : Prop :=
  match p with
  | Ret a => post [] a
  | Call c k =>
      forall r : reply c,
        always (k r) (fun t a => post ({| ev_call := c; ev_reply := r |} :: t) a)
  end.

End Calls.

Arguments Ret {V A} a.
Arguments Call {V A} c k.

Declare Scope prog_scope.
Delimit Scope prog_scope with prog.
Notation "x <- p ;; q" := (bind p (fun x => q))
  (at level 100, p at next level, right associativity) : prog_scope.
Notation "' pat <- p ;; q" := (bind p (fun x => match x with pat => q end))
  (at level 100, pat pattern, p at next level, right associativity) : prog_scope.


(** ** [ResizeAsync] (sharp.cc, lines 48-163) *)

(** The function returns early at every failure.  It is given here in
    stages, last stage first: each stage ends in the stage that follows it in
    the source, or returns.  The destructor of [ImageFreer], which drops the
    reference to the decoded image at every exit, is left out. *)

Section Worker.

Context {R : Rounding} {V : Vips}.

Local Open Scope prog_scope.

(** [if (f(...))]: a non-zero result. *)
Definition failed (rc : Z) : bool := negb (rc =? 0)%Z.

(** [(baton->err).append(vips_error_buffer()); vips_error_clear(); return;] *)
Definition vips_failure (baton : ResizeBaton) : Prog ResizeBaton :=
  text <- call vips_error_buffer ;;
  _ <- call vips_error_clear ;;
  Ret (err_append baton text).

Definition jpeg_options : list (string * Z) :=
  [("strip", TRUE); ("Q", 80); ("optimize_coding", TRUE)].

Definition png_options : list (string * Z) :=
  [("strip", TRUE); ("compression", 6); ("interlace", FALSE)].

(** Lines 134-162. *)
Definition write_output (baton : ResizeBaton) (img : VipsImage) : Prog ResizeBaton :=
  if String.eqb (dst baton) "__jpeg" then
    ' (rc, (buf, len)) <-
      call (vips_jpegsave_buffer img (buffer_out baton) (buffer_out_len baton) jpeg_options) ;;
    if failed rc then vips_failure (set_buffer_out baton buf len)
    else Ret (set_buffer_out baton buf len)
  else if String.eqb (dst baton) "__png" then
    ' (rc, (buf, len)) <-
      call (vips_pngsave_buffer img (buffer_out baton) (buffer_out_len baton) png_options) ;;
    if failed rc then vips_failure (set_buffer_out baton buf len)
    else Ret (set_buffer_out baton buf len)
  else if EndsWith (dst baton) ".jpg" || EndsWith (dst baton) ".jpeg" then
    rc <- call (vips_foreign_save img (dst baton) jpeg_options) ;;
    if failed rc then vips_failure baton else Ret baton
  else if EndsWith (dst baton) ".png" then
    rc <- call (vips_foreign_save img (dst baton) png_options) ;;
    if failed rc then vips_failure baton else Ret baton
  else
    Ret (err_append baton "Unsupported output file type").

(** Lines 121-132. *)
Definition sharpen_stage (baton : ResizeBaton) (img : VipsImage) : Prog ResizeBaton :=
  ' (rc, t3) <- call (im_conv img sharpen) ;;
  if failed rc then vips_failure baton else write_output baton t3.

(** Lines 99-119. *)
Definition canvas_stage (baton : ResizeBaton) (img : VipsImage) : Prog ResizeBaton :=
  if crop baton then
    let r := Geometry.crop_rect (Xsize img) (Ysize img) (cols baton) (rows baton) in
    ' (rc, t2) <-
      call (im_extract_area img (Geometry.left r) (Geometry.top r)
                            (Geometry.width r) (Geometry.height r)) ;;
    if failed rc then vips_failure baton else sharpen_stage baton t2
  else
    let r := Geometry.embed_rect (Xsize img) (Ysize img) (cols baton) (rows baton) in
    ' (rc, t2) <-
      call (im_embed img (embed baton) (Geometry.left r) (Geometry.top r)
                     (Geometry.width r) (Geometry.height r)) ;;
    if failed rc then vips_failure baton else sharpen_stage baton t2.

(** Lines 77-97. *)
Definition resample_stage (baton : ResizeBaton) (img : VipsImage) : Prog ResizeBaton :=
  let shrink :=
    Geometry.shrink (Xsize img) (Ysize img) (cols baton) (rows baton) (crop baton) in
  let residual :=
    Geometry.residual (Xsize img) (Ysize img) (cols baton) (rows baton) (crop baton) in
  ' (rc, t0) <- call (im_shrink img (Double.of_int shrink) (Double.of_int shrink)) ;;
  if failed rc then vips_failure baton
  else
    ' (rc, t1) <-
      call (im_affinei_all t0 vips_interpolate_bilinear_static
                           residual 0 0 residual 0 0) ;;
    if failed rc then vips_failure baton else canvas_stage baton t1.

(** Lines 60-75. *)
Definition decoded (baton : ResizeBaton) (in_ : option VipsImage) : Prog ResizeBaton :=
  match in_ with
  | None => vips_failure baton
  | Some img =>
      rc <- call (im_open_local_array img 4 "temp" "p") ;;
      if failed rc then vips_failure baton else resample_stage baton img
  end.

(** Lines 48-59. *)
Definition ResizeAsync (baton : ResizeBaton) : Prog ResizeBaton :=
  in_ <- call (vips_image_new_mode (src baton) "p") ;;
  if EndsWith (src baton) ".jpg" || EndsWith (src baton) ".jpeg" then
    in_ <- call (vips_jpegload (src baton) in_) ;;
    decoded baton in_
  else if EndsWith (src baton) ".png" then
    in_ <- call (vips_pngload (src baton) in_) ;;
    decoded baton in_
  else
    Ret (err_append baton "Unsupported input file type").

(** Lines 207-209, with libuv's part: [uv_queue_work] has [ResizeAsync] run
    on a pool thread and then [ResizeAsyncAfter] on the loop thread, each
    once.  The result is the callback calls of the request, with the
    library's final state and the calls made into it. *)
Definition uv_queue_work {W : Type} (lib : Library W) (w : W) (baton : ResizeBaton)
  : list CallbackCall * W * list Event :=
  let '(done, w1, t) := run lib (ResizeAsync baton) w in
  (ResizeAsyncAfter done, w1, t).

(** One call of the exported [resize] function, up to its completion. *)
Definition resize {W : Type} (lib : Library W) (w : W)
  (fresh : Indeterminate) (args : Arguments) : list CallbackCall * W * list Event :=
  uv_queue_work lib w (Resize fresh args).

End Worker.


(** ** What a run tells *)

Section Observations.

Context {V : Vips}.

(** The reply is one sharp.cc takes for a failure: a null image after a
    load, a non-zero result elsewhere. *)
Definition reports_failure (e : Event) : bool :=
  match e with
  | Build_Event c r =>
      match c return reply c -> bool with
      | vips_image_new_mode _ _ => fun _ => false
      | vips_jpegload _ _ | vips_pngload _ _ =>
          fun r => match r with Some _ => false | None => true end
      | im_open_local_array _ _ _ _ => fun rc => failed rc
      | im_shrink _ _ _ | im_affinei_all _ _ _ _ _ _ _ _
      | im_extract_area _ _ _ _ _ | im_embed _ _ _ _ _ _ | im_conv _ _ =>
          fun r => failed (fst r)
      | vips_jpegsave_buffer _ _ _ _ | vips_pngsave_buffer _ _ _ _ =>
          fun r => failed (fst r)
      | vips_foreign_save _ _ _ => fun rc => failed rc
      | vips_error_buffer => fun _ => false
      | vips_error_clear => fun _ => false
      end r
  end.

(** No call of the run was answered with a failure. *)
Definition no_failure (t : list Event) : Prop :=
  Forall (fun e => reports_failure e = false) t.

(** The reply is an empty error text. *)
Definition empty_error_text (e : Event) : bool :=
  match e with
  | Build_Event c r =>
      match c return reply c -> bool with
      | vips_error_buffer => fun text => (String.length text =? 0)%nat
      | _ => fun _ => false
      end r
  end.

(** Whenever the run asked libvips for its error text, there was one. *)
Definition error_texts_nonempty (t : list Event) : Prop :=
  Forall (fun e => empty_error_text e = false) t.

(** The call encodes [img], into a buffer or into a file. *)
Definition saves (img : VipsImage) (c : VipsCall) : Prop :=
  match c with
  | vips_jpegsave_buffer i _ _ _ | vips_pngsave_buffer i _ _ _
  | vips_foreign_save i _ _ => i = img
  | _ => False
  end.

End Observations.

(** The two destinations that ask for a buffer. *)
Definition buffer_sentinel (d : string) : Prop := d = "__jpeg" \/ d = "__png".

(** The string ends in one of the three supported suffixes. *)
Definition supported_suffix (s : string) : Prop :=
  (exists p, s = p ++ ".jpg") \/ (exists p, s = p ++ ".jpeg") \/ (exists p, s = p ++ ".png").

(** Spellings with upper-case letters, each with the supported suffix it is
    a spelling of. *)
Definition upper_and_lower_case : list (string * string) :=
  [ (".JPG", ".jpg"); (".JPEG", ".jpeg"); (".Jpeg", ".jpeg"); (".PNG", ".png") ].

(** ** A stand-in library, to run the model on concrete requests *)

(** Images are their sizes, and nothing more. *)
Definition sizes_only : Vips :=
  {| VipsImage := Z * Z; Xsize := fst; Ysize := snd |}.

(** Every call succeeds, except that a load leaves a null image when there
    is no file.  [decoded_size] is the size of the image in the file.
    libvips decides the size of the image that a transform returns; here
    [after_shrink] and [after_affine] turn the exact quotient and the exact
    product into a number of pixels.  All of it only serves to run
    examples. *)
Definition stand_in_reply (after_shrink after_affine : Q -> Z)
  (decoded_size : option (Z * Z)) (c : @VipsCall sizes_only) : @reply sizes_only c :=
  match c return @reply sizes_only c with
  | vips_image_new_mode _ _ => Some (0, 0)
  | vips_jpegload _ _ | vips_pngload _ _ => decoded_size
  | im_open_local_array _ _ _ _ => 0
  | im_shrink img xshrink yshrink =>
      (0, (after_shrink (inject_Z (fst img) / xshrink)%Q,
           after_shrink (inject_Z (snd img) / yshrink)%Q))
  | im_affinei_all img _ a _ _ d _ _ =>
      (0, (after_affine (inject_Z (fst img) * a)%Q,
           after_affine (inject_Z (snd img) * d)%Q))
  | im_extract_area _ _ _ w h => (0, (w, h))
  | im_embed _ _ _ _ w h => (0, (w, h))
  | im_conv img _ => (0, img)
  | vips_jpegsave_buffer _ _ _ _ => (0, ([xff; xd8; xff], 3%N))
  | vips_pngsave_buffer _ _ _ _ => (0, ([x89; x50; x4e; x47], 4%N))
  | vips_foreign_save _ _ _ => 0
  | vips_error_buffer => "VipsJpeg: unable to open"
  | vips_error_clear => tt
  end.

Definition stand_in_with (after_shrink after_affine : Q -> Z)
  (decoded_size : option (Z * Z)) : @Library sizes_only unit :=
  fun c w => (stand_in_reply after_shrink after_affine decoded_size c, w).

(** A library that truncates after a shrink and rounds to nearest after an
    affine transform. *)
Definition stand_in : option (Z * Z) -> @Library sizes_only unit :=
  stand_in_with Qfloor (fun q => Qfloor (q + (1 # 2))%Q).

(** A library that rounds up after both. *)
Definition stand_in_rounding_up : option (Z * Z) -> @Library sizes_only unit :=
  stand_in_with Qceiling Qceiling.

(** The image handed to the save call of a run, if the run has one. *)
Definition saved_image {V : Vips} (t : list Event) : option VipsImage :=
  match last t (Build_Event vips_error_clear tt) with
  | Build_Event (vips_jpegsave_buffer img _ _ _) _
  | Build_Event (vips_pngsave_buffer img _ _ _) _
  | Build_Event (vips_foreign_save img _ _) _ => Some img
  | _ => None
  end.


(** An allocation and a request, used as examples. *)
Definition example_fresh : Indeterminate :=
  {| ind_buffer_out := []; ind_cols := 7; ind_rows := 9; ind_crop := true;
     ind_embed := 77 |}.

Definition example_request (source destination canvas : string) (w h : Z) : Arguments :=
  {| arg_src := source; arg_dst := destination; arg_cols := w; arg_rows := h;
     arg_canvas := canvas; arg_callback := js_function 1 |}.

(** ** [ImageFreer] (lines 13-27) *)

Module ImageFreer.
Section WithImages.

Context {V : Vips}.

(** The member [v_]: the pointers added so far, [None] for a null pointer. *)
Definition t : Type := list (option VipsImage).

(** Line 15. *)
Definition create : t := [].

(** Line 24. *)
Definition add (freer : t) (i : option VipsImage) : t := (freer ++ [i])%list.

(** A [uint16_t] after [i++]. *)
Definition uint16_succ (i : Z) : Z := (i + 1) mod 2 ^ 16.

(** Lines 17-21: the loop of the destructor from index [i] on.  The result is
    the images handed to [g_object_unref], in order; [None] when the loop has
    not ended within [fuel] iterations. *)
Fixpoint unref_from (fuel : nat) (v : t) (i : Z) : option (list VipsImage) :=
  match fuel with
  | O => None
  | S fuel' =>
      if (i <? Z.of_nat (List.length v))%Z then
        match unref_from fuel' v (uint16_succ i) with
        | None => None
        | Some rest =>
            match nth (Z.to_nat i) v None with
            | Some img => Some (img :: rest)
            | None => Some rest
            end
        end
      else Some []
  end.

(** Lines 16-23: the destructor: the images released, and [v_] after
    [v_.clear()]. *)
Definition destroy (fuel : nat) (v : t) : option (list VipsImage * t) :=
  match unref_from fuel v 0 with
  | Some released => Some (released, [])
  | None => None
  end.

(** The non-null pointers of [v_], in the order they were added. *)
Fixpoint held (v : t) : list VipsImage :=
  match v with
  | [] => []
  | Some img :: v' => img :: held v'
  | None :: v' => held v'
  end.

End WithImages.
End ImageFreer.

(** Two images and a null pointer, added in turn. *)
Definition example_freer : @ImageFreer.t sizes_only :=
  ImageFreer.add
    (ImageFreer.add (ImageFreer.add (@ImageFreer.create sizes_only) (Some (10, 20))) None)
    (Some (3, 4)).

(** ** What a run shows of the request *)

Section Policies.
Context {R : Rounding} {V : Vips}.


(** The call encodes in the format, and with the options, that lines 134-162
    have for the destination [d]. *)
Definition encodes_as (d : string) (c : VipsCall) : Prop :=
  match c with
  | vips_jpegsave_buffer _ _ _ o =>
      d = "__jpeg" /\ o = [("strip", 1); ("Q", 80); ("optimize_coding", 1)]
  | vips_pngsave_buffer _ _ _ o =>
      d = "__png" /\ o = [("strip", 1); ("compression", 6); ("interlace", 0)]
  | vips_foreign_save _ f o =>
      f = d /\ ~ buffer_sentinel d /\
      ((EndsWith d ".jpg" = true \/ EndsWith d ".jpeg" = true) /\
       o = [("strip", 1); ("Q", 80); ("optimize_coding", 1)]
       \/
       EndsWith d ".png" = true /\
       o = [("strip", 1); ("compression", 6); ("interlace", 0)])
  | _ => True
  end.

(** The call is one of the three that write the output. *)
Definition is_save (e : Event) : bool :=
  match ev_call e with
  | vips_jpegsave_buffer _ _ _ _ | vips_pngsave_buffer _ _ _ _
  | vips_foreign_save _ _ _ => true
  | _ => false
  end.

(** The canvas policy, as the worker reads it from [crop] and [embed]. *)
Inductive CanvasPolicy : Type :=
| Crop
| Embed (background : Z).

Definition policy_of (baton : ResizeBaton) : CanvasPolicy :=
  if crop baton then Crop else Embed (embed baton).

Definition policy_crops (p : CanvasPolicy) : bool :=
  match p with Crop => true | Embed _ => false end.

(** The call is one that the policy [p], for the target [w] by [h], allows:
    the shrink is the planner's for that policy, an extraction needs [Crop],
    an embedding needs [Embed] with the call's background and the target as
    the canvas. *)
Definition follows_policy (p : CanvasPolicy) (w h : Z) (c : VipsCall) : Prop :=
  match c with
  | im_shrink img xs ys =>
      xs = ys /\
      xs = Double.of_int (Geometry.shrink (Xsize img) (Ysize img) w h (policy_crops p))
  | im_extract_area _ _ _ _ _ => p = Crop
  | im_embed _ background _ _ cw ch => p = Embed background /\ cw = w /\ ch = h
  | _ => True
  end.

End Policies.

(** * Properties *)

(** ** [int] arithmetic *)

Lemma wrap_in_range (z : Z) : Int.in_range z -> Int.wrap z = z.
Proof.
  unfold Int.in_range, Int.INT_MIN, Int.INT_MAX, Int.wrap. intros H.
  rewrite Z.mod_small; lia.
Qed.

Lemma int_max_spec (a b : Z) : Int.max a b = Z.max a b.
Proof. unfold Int.max. destruct (Z.ltb_spec a b); lia. Qed.

Lemma int_min_spec (a b : Z) : Int.min a b = Z.min a b.
Proof. unfold Int.min. destruct (Z.ltb_spec b a); lia. Qed.

(** ** Round to nearest even is monotone and exact on binary64 numbers *)

Lemma pow2_pos (e : Z) : (0 < pow2 e)%Q.
Proof. apply Qpower_0_lt. reflexivity. Qed.

Lemma pow2_add (a b : Z) : (pow2 (a + b) == pow2 a * pow2 b)%Q.
Proof. apply Qpower_plus. discriminate. Qed.

Lemma pow2_le (a b : Z) : a <= b -> (pow2 a <= pow2 b)%Q.
Proof. intros H. apply Qpower_le_compat_l; [exact H | discriminate]. Qed.

Lemma pow2_lt_inv (a b : Z) : (pow2 a < pow2 b)%Q -> a < b.
Proof. intros H. apply (Qpower_lt_compat_l_inv 2); [exact H | reflexivity]. Qed.

Lemma pow2_Z (n : Z) : 0 <= n -> (pow2 n == inject_Z (2 ^ n))%Q.
Proof. intros H. unfold pow2. now rewrite Zpower_Qpower. Qed.

Lemma Qle_num_den (x q : Q) :
  (x <= q)%Q <-> (x * inject_Z (Z.pos (Qden q)) <= inject_Z (Qnum q))%Q.
Proof.
  destruct q as [n d]. unfold Qle. simpl. rewrite Pos.mul_1_r, Z.mul_1_r. reflexivity.
Qed.

Lemma Qlt_num_den (x q : Q) :
  (q < x)%Q <-> (inject_Z (Qnum q) < x * inject_Z (Z.pos (Qden q)))%Q.
Proof.
  destruct q as [n d]. unfold Qlt. simpl. rewrite Pos.mul_1_r, Z.mul_1_r. reflexivity.
Qed.

Lemma ilog2_spec (q : Q) :
  (0 < q)%Q -> (pow2 (ilog2 q) <= q)%Q /\ (q < pow2 (ilog2 q + 1))%Q.
Proof.
  intros Hq.
  assert (Hn : 0 < Qnum q) by (unfold Qlt in Hq; simpl in Hq; lia).
  pose proof (Z.log2_spec (Qnum q) Hn) as [Hn1 Hn2].
  pose proof (Z.log2_spec (Z.pos (Qden q)) (Pos2Z.is_pos _)) as [Hd1 Hd2].
  pose proof (Z.log2_nonneg (Qnum q)) as Hn0.
  pose proof (Z.log2_nonneg (Z.pos (Qden q))) as Hd0.
  set (ln := Z.log2 (Qnum q)) in *. set (ld := Z.log2 (Z.pos (Qden q))) in *.
  unfold ilog2. fold ln ld.
  destruct (Qle_bool (pow2 (ln - ld)) q) eqn:E.
  - apply Qle_bool_iff in E. split; [exact E | ].
    apply Qlt_num_den.
    apply Qlt_le_trans with (inject_Z (2 ^ (ln + 1))).
    + rewrite <- Zlt_Qlt. replace (ln + 1) with (Z.succ ln) by lia. exact Hn2.
    + rewrite <- pow2_Z by lia.
      replace (ln + 1) with ((ln - ld + 1) + ld) by lia.
      rewrite pow2_add. apply Qmult_le_l; [apply pow2_pos | ].
      rewrite pow2_Z by lia. rewrite <- Zle_Qle. exact Hd1.
  - assert (E' : (q < pow2 (ln - ld))%Q).
    { apply Qnot_le_lt. intros H. apply Qle_bool_iff in H. congruence. }
    split.
    + apply Qle_num_den.
      apply Qle_trans with (inject_Z (2 ^ ln)).
      * rewrite <- pow2_Z by lia.
        replace ln with ((ln - ld - 1) + (ld + 1)) at 2 by lia.
        rewrite pow2_add. apply Qmult_le_l; [apply pow2_pos | ].
        rewrite pow2_Z by lia. rewrite <- Zle_Qle.
        replace (ld + 1) with (Z.succ ld) by lia. lia.
      * rewrite <- Zle_Qle. exact Hn1.
    + replace (ln - ld - 1 + 1) with (ln - ld) by lia. exact E'.
Qed.

Lemma ilog2_monotone (a b : Q) : (0 < a)%Q -> (a <= b)%Q -> ilog2 a <= ilog2 b.
Proof.
  intros Ha Hab.
  assert (Hb : (0 < b)%Q) by (eapply Qlt_le_trans; eassumption).
  destruct (ilog2_spec a Ha) as [La _]. destruct (ilog2_spec b Hb) as [_ Ub].
  assert (H : (pow2 (ilog2 a) < pow2 (ilog2 b + 1))%Q).
  { eapply Qle_lt_trans; [exact La | ]. eapply Qle_lt_trans; eassumption. }
  apply pow2_lt_inv in H. lia.
Qed.

Lemma ilog2_below (q : Q) (k : Z) : (0 < q)%Q -> (q < pow2 k)%Q -> ilog2 q < k.
Proof.
  intros Hq H. destruct (ilog2_spec q Hq) as [L _].
  apply pow2_lt_inv. eapply Qle_lt_trans; eassumption.
Qed.

Ltac compared H :=
  match type of H with
  | (_ ?= _)%Q = Eq => apply Qeq_alt in H
  | (_ ?= _)%Q = Lt => apply Qlt_alt in H
  | (_ ?= _)%Q = Gt => apply Qgt_alt in H
  end.

Lemma nearest_even_bounds (x : Q) : Qfloor x <= nearest_even x <= Qfloor x + 1.
Proof.
  unfold nearest_even.
  destruct (x - inject_Z (Qfloor x) ?= 1 # 2)%Q; [destruct (Z.even (Qfloor x)) | | ]; lia.
Qed.

Lemma nearest_even_Z (z : Z) : nearest_even (inject_Z z) = z.
Proof.
  unfold nearest_even. rewrite Qfloor_Z.
  assert (H : (inject_Z z - inject_Z z ?= 1 # 2)%Q = Lt).
  { apply Qlt_alt. setoid_replace (inject_Z z - inject_Z z)%Q with 0%Q by ring. reflexivity. }
  now rewrite H.
Qed.

Lemma nearest_even_monotone (x y : Q) : (x <= y)%Q -> nearest_even x <= nearest_even y.
Proof.
  intros H. pose proof (Qfloor_resp_le x y H) as Hf.
  pose proof (nearest_even_bounds x) as Bx. pose proof (nearest_even_bounds y) as By.
  destruct (Z.eq_dec (Qfloor x) (Qfloor y)) as [E | NE]; [ | lia].
  unfold nearest_even. rewrite <- E.
  assert (Hd : (x - inject_Z (Qfloor x) <= y - inject_Z (Qfloor x))%Q).
  { apply Qplus_le_l. exact H. }
  destruct (x - inject_Z (Qfloor x) ?= 1 # 2)%Q eqn:Cx;
    destruct (y - inject_Z (Qfloor x) ?= 1 # 2)%Q eqn:Cy;
    compared Cx; compared Cy;
    try (destruct (Z.even (Qfloor x))); try lia; exfalso; lra.
Qed.

Lemma nearest_even_proper (x y : Q) : (x == y)%Q -> nearest_even x = nearest_even y.
Proof.
  intros H. apply Z.le_antisymm; apply nearest_even_monotone; rewrite H; apply Qle_refl.
Qed.

Lemma nearest_even_lower (n : Z) (x : Q) : (inject_Z n <= x)%Q -> n <= nearest_even x.
Proof. intros H. rewrite <- (nearest_even_Z n). now apply nearest_even_monotone. Qed.

Lemma nearest_even_upper (n : Z) (x : Q) : (x <= inject_Z n)%Q -> nearest_even x <= n.
Proof. intros H. rewrite <- (nearest_even_Z n). now apply nearest_even_monotone. Qed.

Lemma div_pow2_le (a b : Q) (e : Z) : (a <= b)%Q -> (a / pow2 e <= b / pow2 e)%Q.
Proof.
  intros H. apply Qmult_le_compat_r; [exact H | ].
  apply Qinv_le_0_compat, Qlt_le_weak, pow2_pos.
Qed.

Lemma div_pow2_add (e k : Z) : (pow2 (e + k) / pow2 e == pow2 k)%Q.
Proof.
  rewrite pow2_add. field. intros H. pose proof (pow2_pos e) as P. rewrite H in P.
  discriminate P.
Qed.

Lemma exponent_monotone (a b : Q) : (0 < a)%Q -> (a <= b)%Q -> exponent a <= exponent b.
Proof. intros Ha Hab. unfold exponent. pose proof (ilog2_monotone a b Ha Hab). lia. Qed.

Lemma round_positive_nonneg (q : Q) : (0 < q)%Q -> (0 <= round_positive q)%Q.
Proof.
  intros Hq. unfold round_positive. apply Qmult_le_0_compat.
  - change 0%Q with (inject_Z 0). rewrite <- Zle_Qle. apply nearest_even_lower.
    change (inject_Z 0) with 0%Q. apply Qle_shift_div_l; [apply pow2_pos | ].
    rewrite Qmult_0_l. apply Qlt_le_weak, Hq.
  - apply Qlt_le_weak, pow2_pos.
Qed.

(** Below the next power of two. *)
Lemma round_positive_upper (q : Q) :
  (0 < q)%Q -> (round_positive q <= pow2 (exponent q + 53))%Q.
Proof.
  intros Hq. unfold round_positive.
  rewrite (Z.add_comm (exponent q) 53), pow2_add.
  apply Qmult_le_compat_r; [ | apply Qlt_le_weak, pow2_pos].
  rewrite (pow2_Z 53) by lia. rewrite <- Zle_Qle. apply nearest_even_upper.
  rewrite <- (pow2_Z 53) by lia. rewrite <- (div_pow2_add (exponent q) 53).
  apply div_pow2_le. destruct (ilog2_spec q Hq) as [_ U].
  apply Qlt_le_weak. eapply Qlt_le_trans; [exact U | ].
  apply pow2_le. unfold exponent. lia.
Qed.

(** Above the power of two just below, for a normal number. *)
Lemma round_positive_lower (q : Q) :
  (0 < q)%Q -> -1074 < exponent q -> (pow2 (exponent q + 52) <= round_positive q)%Q.
Proof.
  intros Hq He. unfold round_positive.
  rewrite (Z.add_comm (exponent q) 52), pow2_add.
  apply Qmult_le_compat_r; [ | apply Qlt_le_weak, pow2_pos].
  rewrite (pow2_Z 52) by lia. rewrite <- Zle_Qle. apply nearest_even_lower.
  rewrite <- (pow2_Z 52) by lia. rewrite <- (div_pow2_add (exponent q) 52).
  apply div_pow2_le. destruct (ilog2_spec q Hq) as [L _].
  eapply Qle_trans; [ | exact L].
  apply pow2_le. unfold exponent in *. lia.
Qed.

Lemma round_positive_monotone (a b : Q) :
  (0 < a)%Q -> (a <= b)%Q -> (round_positive a <= round_positive b)%Q.
Proof.
  intros Ha Hab.
  assert (Hb : (0 < b)%Q) by (eapply Qlt_le_trans; eassumption).
  pose proof (exponent_monotone a b Ha Hab) as He.
  destruct (Z.eq_dec (exponent a) (exponent b)) as [E | NE].
  - unfold round_positive. rewrite E.
    apply Qmult_le_compat_r; [ | apply Qlt_le_weak, pow2_pos].
    rewrite <- Zle_Qle. apply nearest_even_monotone, div_pow2_le, Hab.
  - eapply Qle_trans; [apply (round_positive_upper a Ha) | ].
    eapply Qle_trans; [ | apply (round_positive_lower b Hb)].
    + apply pow2_le. lia.
    + unfold exponent in *. lia.
Qed.

Lemma round_positive_exact (q : Q) (m e : Z) :
  0 < m < 2 ^ 53 -> -1074 <= e -> (q == inject_Z m * pow2 e)%Q ->
  (round_positive q == q)%Q.
Proof.
  intros Hm He Hq.
  assert (Hpos : (0 < q)%Q).
  { rewrite Hq. apply Qmult_lt_0_compat; [ | apply pow2_pos].
    change 0%Q with (inject_Z 0). rewrite <- Zlt_Qlt. lia. }
  assert (Hx : exponent q <= e).
  { assert (H : ilog2 q < 53 + e).
    { apply ilog2_below; [exact Hpos | ]. rewrite Hq, pow2_add.
      apply Qmult_lt_compat_r; [apply pow2_pos | ].
      rewrite (pow2_Z 53) by lia. rewrite <- Zlt_Qlt. lia. }
    unfold exponent. lia. }
  set (x := exponent q) in *.
  assert (Hn : (q / pow2 x == inject_Z (m * 2 ^ (e - x)))%Q).
  { rewrite Hq, inject_Z_mult, <- (pow2_Z (e - x)) by lia.
    rewrite <- (div_pow2_add x (e - x)). replace (x + (e - x)) with e by lia.
    field. intros H. pose proof (pow2_pos x) as P. rewrite H in P. discriminate P. }
  unfold round_positive. fold x.
  rewrite (nearest_even_proper _ _ Hn), nearest_even_Z.
  rewrite <- Hn. field.
  intros H. pose proof (pow2_pos x) as P. rewrite H in P. discriminate P.
Qed.

Lemma round_nearest_monotone (a b : Q) : (a <= b)%Q -> (round_nearest a <= round_nearest b)%Q.
Proof.
  intros H. unfold round_nearest.
  destruct (a ?= 0)%Q eqn:Ca; destruct (b ?= 0)%Q eqn:Cb; compared Ca; compared Cb;
    try (exfalso; lra).
  - apply Qle_refl.
  - apply round_positive_nonneg, Cb.
  - pose proof (round_positive_nonneg (- a)) as P. lra.
  - apply Qopp_le_compat. apply round_positive_monotone; lra.
  - pose proof (round_positive_nonneg (- a)) as P.
    pose proof (round_positive_nonneg b Cb) as P'. lra.
  - apply round_positive_monotone; assumption.
Qed.

Lemma round_nearest_exact (q : Q) (m e : Z) :
  Z.abs m < 2 ^ 53 -> -1074 <= e -> (q == inject_Z m * pow2 e)%Q ->
  (round_nearest q == q)%Q.
Proof.
  intros Hm He Hq. unfold round_nearest.
  destruct (q ?= 0)%Q eqn:C; compared C.
  - symmetry. exact C.
  - assert (Hneg : m < 0).
    { destruct (Z.lt_ge_cases m 0) as [L | G]; [exact L | exfalso].
      assert (0 <= q)%Q; [ | lra]. rewrite Hq. apply Qmult_le_0_compat.
      - change 0%Q with (inject_Z 0). now rewrite <- Zle_Qle.
      - apply Qlt_le_weak, pow2_pos. }
    rewrite (round_positive_exact (- q) (- m) e); [ring | lia | exact He | ].
    rewrite Hq, inject_Z_opp. ring.
  - assert (Hpos : 0 < m).
    { destruct (Z.lt_ge_cases 0 m) as [L | G]; [exact L | exfalso].
      assert (q <= 0)%Q; [ | lra]. rewrite Hq.
      setoid_replace (inject_Z m * pow2 e)%Q with (- (inject_Z (- m) * pow2 e))%Q
        by (rewrite inject_Z_opp; ring).
      assert (0 <= inject_Z (- m) * pow2 e)%Q; [ | lra].
      apply Qmult_le_0_compat.
      - change 0%Q with (inject_Z 0). rewrite <- Zle_Qle. lia.
      - apply Qlt_le_weak, pow2_pos. }
    apply (round_positive_exact q m e); [lia | exact He | exact Hq].
Qed.

(** Round to nearest even is a rounding. *)
Definition binary64_rounding : Rounding :=
  {| round := round_nearest;
     round_monotone := round_nearest_monotone;
     round_binary64 := fun q H =>
       match H with
       | ex_intro _ m (ex_intro _ e (conj Hm (conj He Hq))) =>
           round_nearest_exact q m e Hm (proj1 He) Hq
       end |}.

(** ** [double] arithmetic *)

Section DoubleFacts.

Context {R : Rounding}.

Lemma binary64_int (z : Z) : Z.abs z < 2 ^ 53 -> binary64 (inject_Z z).
Proof.
  intros H. exists z, 0. split; [exact H | split; [lia | ]].
  unfold pow2. simpl. now rewrite Qmult_1_r.
Qed.

Lemma round_int (z : Z) : Int.in_range z -> (round (inject_Z z) == inject_Z z)%Q.
Proof.
  intros H. apply round_binary64, binary64_int.
  unfold Int.in_range, Int.INT_MIN, Int.INT_MAX in H. lia.
Qed.

Lemma double_ltb_spec (a b : Q) : Double.ltb a b = true <-> (a < b)%Q.
Proof.
  unfold Double.ltb. rewrite negb_true_iff.
  destruct (Qle_bool b a) eqn:E.
  - apply Qle_bool_iff in E. split; [discriminate | intros H; exfalso; apply (Qlt_not_le _ _ H E)].
  - split; [intros _ | reflexivity]. apply Qnot_le_lt. intros H.
    apply Qle_bool_iff in H. congruence.
Qed.

Lemma double_max_spec (a b : Q) : (Double.max a b == Qmax a b)%Q.
Proof.
  unfold Double.max. destruct (Double.ltb a b) eqn:E.
  - apply double_ltb_spec in E. symmetry. apply Q.max_r. apply Qlt_le_weak, E.
  - symmetry. apply Q.max_l. apply Qnot_lt_le. intros H.
    apply double_ltb_spec in H. congruence.
Qed.

Lemma double_min_spec (a b : Q) : (Double.min a b == Qmin a b)%Q.
Proof.
  unfold Double.min. destruct (Double.ltb b a) eqn:E.
  - apply double_ltb_spec in E. symmetry. apply Q.min_r. apply Qlt_le_weak, E.
  - symmetry. apply Q.min_l. apply Qnot_lt_le. intros H.
    apply double_ltb_spec in H. congruence.
Qed.

Lemma double_max_lower (a b : Q) : (b <= Double.max a b)%Q.
Proof. rewrite double_max_spec. apply Q.le_max_r. Qed.

(** [to_int (floor a)] is the mathematical floor when it fits an [int]. *)
Lemma to_int_floor (a : Q) :
  Int.in_range (Qfloor a) -> Double.to_int (Double.floor a) = Qfloor a.
Proof.
  intros H. unfold Double.to_int, Double.floor. simpl.
  rewrite Z.quot_1_r. apply wrap_in_range, H.
Qed.

End DoubleFacts.

(** ** The scale factor, the shrink and the residual *)

Section GeometryFacts.

Context {R : Rounding}.

Variables (X Y cols rows : Z) (crop : bool).
Hypothesis X_int : Int.in_range X.
Hypothesis Y_int : Int.in_range Y.

Lemma clamped_target_positive (target : Z) : 1 <= Int.max target 1.
Proof. rewrite int_max_spec. lia. Qed.

Lemma quotient_le_INT_MAX (n d : Z) :
  Int.in_range n -> 1 <= d ->
  (Double.div (Double.of_int n) (Double.of_int d) <= inject_Z Int.INT_MAX)%Q.
Proof.
  intros Hn Hd. unfold Double.div, Double.of_int.
  rewrite <- (round_int Int.INT_MAX) by (unfold Int.in_range, Int.INT_MIN, Int.INT_MAX; lia).
  apply round_monotone. apply Qle_shift_div_r.
  - change 0%Q with (inject_Z 0). rewrite <- Zlt_Qlt. lia.
  - rewrite <- inject_Z_mult, <- Zle_Qle.
    unfold Int.in_range, Int.INT_MIN, Int.INT_MAX in *. nia.
Qed.

Lemma xfactor_le_INT_MAX : (Geometry.xfactor X cols <= inject_Z Int.INT_MAX)%Q.
Proof. apply quotient_le_INT_MAX; [exact X_int | apply clamped_target_positive]. Qed.

Lemma yfactor_le_INT_MAX : (Geometry.yfactor Y rows <= inject_Z Int.INT_MAX)%Q.
Proof. apply quotient_le_INT_MAX; [exact Y_int | apply clamped_target_positive]. Qed.

Lemma chosen_factor_spec :
  (Geometry.chosen_factor X Y cols rows crop ==
   if crop then Qmin (Geometry.xfactor X cols) (Geometry.yfactor Y rows)
   else Qmax (Geometry.xfactor X cols) (Geometry.yfactor Y rows))%Q.
Proof.
  unfold Geometry.chosen_factor. destruct crop.
  - apply double_min_spec.
  - apply double_max_spec.
Qed.

Lemma chosen_factor_le_INT_MAX :
  (Geometry.chosen_factor X Y cols rows crop <= inject_Z Int.INT_MAX)%Q.
Proof.
  rewrite chosen_factor_spec. destruct crop.
  - eapply Qle_trans; [apply Q.le_min_l | apply xfactor_le_INT_MAX].
  - apply Q.max_lub; [apply xfactor_le_INT_MAX | apply yfactor_le_INT_MAX].
Qed.

Lemma factor_ge_1 : (1 <= Geometry.factor X Y cols rows crop)%Q.
Proof. unfold Geometry.factor. apply double_max_lower. Qed.

Lemma factor_le_INT_MAX : (Geometry.factor X Y cols rows crop <= inject_Z Int.INT_MAX)%Q.
Proof.
  unfold Geometry.factor. rewrite double_max_spec.
  apply Q.max_lub; [apply chosen_factor_le_INT_MAX | ].
  change 1%Q with (inject_Z 1). rewrite <- Zle_Qle. unfold Int.INT_MAX. lia.
Qed.

Lemma floor_factor_bounds :
  1 <= Qfloor (Geometry.factor X Y cols rows crop) <= Int.INT_MAX.
Proof.
  split.
  - change 1 with (Qfloor (inject_Z 1)) at 1. apply Qfloor_resp_le, factor_ge_1.
  - rewrite <- (Qfloor_Z Int.INT_MAX). apply Qfloor_resp_le, factor_le_INT_MAX.
Qed.

Lemma shrink_is_floor :
  Geometry.shrink X Y cols rows crop = Qfloor (Geometry.factor X Y cols rows crop).
Proof.
  unfold Geometry.shrink. apply to_int_floor.
  pose proof floor_factor_bounds as H.
  unfold Int.in_range, Int.INT_MIN, Int.INT_MAX in *. lia.
Qed.

Lemma shrink_le_factor :
  (inject_Z (Geometry.shrink X Y cols rows crop) <= Geometry.factor X Y cols rows crop)%Q.
Proof. rewrite shrink_is_floor. apply Qfloor_le. Qed.

Lemma binary64_2_pow_minus_31 : binary64 (1 / inject_Z (2 ^ 31)).
Proof.
  exists 1, (-31). split; [lia | split; [lia | ]]. reflexivity.
Qed.

Lemma residual_bounds :
  (0 < Geometry.residual X Y cols rows crop <= 1)%Q.
Proof.
  pose proof floor_factor_bounds as [Hlo Hhi].
  pose proof factor_ge_1 as Hf1.
  pose proof factor_le_INT_MAX as Hfmax.
  pose proof shrink_le_factor as Hsf.
  assert (Hfpos : (0 < Geometry.factor X Y cols rows crop)%Q)
    by (eapply Qlt_le_trans; [ | exact Hf1]; reflexivity).
  unfold Geometry.residual, Double.div, Double.of_int. split.
  - apply Qlt_le_trans with (1 / inject_Z (2 ^ 31))%Q; [reflexivity | ].
    rewrite <- (round_binary64 _ binary64_2_pow_minus_31).
    apply round_monotone.
    apply Qle_shift_div_l; [exact Hfpos | ].
    apply Qle_trans with (1 / inject_Z (2 ^ 31) * inject_Z Int.INT_MAX)%Q.
    + apply Qmult_le_l; [reflexivity | exact Hfmax].
    + apply Qle_trans with 1%Q; [unfold Qle; simpl; lia | ].
      change 1%Q with (inject_Z 1). rewrite <- Zle_Qle.
      rewrite shrink_is_floor. exact Hlo.
  - rewrite <- (round_int 1) by (unfold Int.in_range, Int.INT_MIN, Int.INT_MAX; lia).
    apply round_monotone.
    apply Qle_shift_div_r; [exact Hfpos | ].
    change (inject_Z 1) with 1%Q. rewrite Qmult_1_l. exact Hsf.
Qed.

End GeometryFacts.

(** C3.  For every source size and every target size, the planner divides by
    the targets clamped to at least 1; the factor it chooses is the minimum of
    [xfactor] and [yfactor] under Crop and their maximum under Embed, clamped
    below at 1.0, so the factor is at least 1.0; and the shrink is the floor
    of the factor and at least 1. *)
Theorem planner_factor_and_shrink {R : Rounding} (X Y cols rows : Z) (crop : bool) :
  Int.in_range X -> Int.in_range Y ->
  let xf := Geometry.xfactor X cols in
  let yf := Geometry.yfactor Y rows in
  let f := Geometry.factor X Y cols rows crop in
  xf = round (inject_Z X / inject_Z (Z.max cols 1)) /\
  yf = round (inject_Z Y / inject_Z (Z.max rows 1)) /\
  (f == Qmax (if crop then Qmin xf yf else Qmax xf yf) 1)%Q /\
  (1 <= f)%Q /\
  Geometry.shrink X Y cols rows crop = Qfloor f /\
  1 <= Geometry.shrink X Y cols rows crop.
Proof.
  intros HX HY xf yf f. subst xf yf f.
  split; [ | split; [ | split; [ | split; [ | split]]]].
  - unfold Geometry.xfactor, Double.div, Double.of_int. now rewrite int_max_spec.
  - unfold Geometry.yfactor, Double.div, Double.of_int. now rewrite int_max_spec.
  - unfold Geometry.factor. rewrite double_max_spec.
    pose proof (chosen_factor_spec X Y cols rows crop) as H.
    apply Q.max_compat; [exact H | reflexivity].
  - apply factor_ge_1.
  - apply shrink_is_floor; assumption.
  - rewrite shrink_is_floor by assumption.
    apply (floor_factor_bounds X Y cols rows crop HX HY).
Qed.

(** C4.  For all inputs of the geometry computation, the residual, which is
    the shrink divided by the factor, lies in the interval (0, 1]. *)
Theorem residual_in_unit_interval {R : Rounding} (X Y cols rows : Z) (crop : bool) :
  Int.in_range X -> Int.in_range Y ->
  Geometry.residual X Y cols rows crop =
    round (inject_Z (Geometry.shrink X Y cols rows crop)
           / Geometry.factor X Y cols rows crop) /\
  (0 < Geometry.residual X Y cols rows crop)%Q /\
  (Geometry.residual X Y cols rows crop <= 1)%Q.
Proof.
  intros HX HY. split; [reflexivity | ].
  apply (residual_bounds X Y cols rows crop HX HY).
Qed.

(** ** The crop and embed rectangles *)

(** C10.  Under Crop, for a resampled image of width and height at least 1
    and targets at least 1, the extracted rectangle has
    width = min(resampled width, target width),
    left = (resampled width - width + 1) / 2, and the same for height and
    top; it satisfies left >= 0, top >= 0, left + width <= resampled width and
    top + height <= resampled height: the crop lies inside the image. *)
Theorem crop_rect_inside_image (img_Xsize img_Ysize cols rows : Z) :
  1 <= img_Xsize <= Int.INT_MAX -> 1 <= img_Ysize <= Int.INT_MAX ->
  1 <= cols -> 1 <= rows ->
  let r := Geometry.crop_rect img_Xsize img_Ysize cols rows in
  Geometry.width r = Z.min img_Xsize cols /\
  Geometry.height r = Z.min img_Ysize rows /\
  Geometry.left r = (img_Xsize - Geometry.width r + 1) / 2 /\
  Geometry.top r = (img_Ysize - Geometry.height r + 1) / 2 /\
  0 <= Geometry.left r /\ 0 <= Geometry.top r /\
  Geometry.left r + Geometry.width r <= img_Xsize /\
  Geometry.top r + Geometry.height r <= img_Ysize.
Proof.
  intros HX HY Hc Hr r. subst r. unfold Geometry.crop_rect. simpl.
  rewrite !int_min_spec. unfold Int.div, Int.add, Int.sub.
  unfold Int.INT_MAX in *.
  assert (Hw : forall a b, 1 <= a <= 2 ^ 31 - 1 -> 1 <= b ->
    Int.wrap (Z.quot (Int.wrap (Int.wrap (a - Z.min a b) + 1)) 2)
      = (a - Z.min a b + 1) / 2 /\
    0 <= (a - Z.min a b + 1) / 2 /\ (a - Z.min a b + 1) / 2 + Z.min a b <= a).
  { intros a b Ha Hb.
    assert (Hd : 0 <= a - Z.min a b <= 2 ^ 31 - 2) by lia.
    rewrite (wrap_in_range (a - Z.min a b))
      by (unfold Int.in_range, Int.INT_MIN, Int.INT_MAX; lia).
    rewrite (wrap_in_range (a - Z.min a b + 1))
      by (unfold Int.in_range, Int.INT_MIN, Int.INT_MAX; lia).
    rewrite Z.quot_div_nonneg by lia.
    assert (Hq : 0 <= (a - Z.min a b + 1) / 2 <= a - Z.min a b).
    { split; [apply Z.div_pos; lia | ].
      destruct (Z.eq_dec (a - Z.min a b) 0) as [E | E].
      - rewrite E. reflexivity.
      - apply Z.div_le_upper_bound; lia. }
    rewrite wrap_in_range
      by (unfold Int.in_range, Int.INT_MIN, Int.INT_MAX; lia).
    lia. }
  destruct (Hw img_Xsize cols HX Hc) as (E1 & L1 & U1).
  destruct (Hw img_Ysize rows HY Hr) as (E2 & L2 & U2).
  rewrite E1, E2. repeat split; assumption.
Qed.

(** The crop gives the target size when, and only when, the resampled image
    is at least as large as the target along both axes.  The size of the
    resampled image is libvips' reply to [im_shrink] and [im_affinei_all]. *)
Lemma crop_rect_fills_target (img_Xsize img_Ysize cols rows : Z) :
  let r := Geometry.crop_rect img_Xsize img_Ysize cols rows in
  (Geometry.width r = cols /\ Geometry.height r = rows) <->
  (cols <= img_Xsize /\ rows <= img_Ysize).
Proof.
  cbv zeta. unfold Geometry.crop_rect. simpl. rewrite !int_min_spec. lia.
Qed.

(** ** Suffixes *)

Lemma length_append (s t : string) :
  String.length (s ++ t) = (String.length s + String.length t)%nat.
Proof. induction s as [ | c s IH]; simpl; [reflexivity | now rewrite IH]. Qed.

Lemma substring_all (s : string) : substring 0 (String.length s) s = s.
Proof. induction s as [ | c s IH]; simpl; [reflexivity | now rewrite IH]. Qed.

Lemma substring_skip_prefix (p s : string) (m : nat) :
  substring (String.length p) m (p ++ s) = substring 0 m s.
Proof. induction p as [ | c p IH]; simpl; [reflexivity | exact IH]. Qed.

Lemma substring_split (s : string) (n : nat) :
  (n <= String.length s)%nat ->
  s = substring 0 n s ++ substring n (String.length s - n) s.
Proof.
  revert n. induction s as [ | c s IH]; intros n Hn; simpl in *.
  - destruct n; reflexivity.
  - destruct n as [ | n]; simpl.
    + now rewrite substring_all.
    + f_equal. apply IH. lia.
Qed.

(** [EndsWith] is exact: it holds when, and only when, the string is some
    prefix followed by the very characters of [end_]. *)
Lemma EndsWith_spec (str end_ : string) :
  EndsWith str end_ = true <-> exists p : string, str = p ++ end_.
Proof.
  unfold EndsWith, compare_eq0. rewrite andb_true_iff, Nat.leb_le, String.eqb_eq. split.
  - intros [Hlen Hsub].
    remember (String.length str - String.length end_)%nat as n eqn:En.
    assert (Hs : substring n (String.length str - n) str = end_)
      by (replace (String.length str - n)%nat with (String.length end_) by lia;
          exact Hsub).
    exists (substring 0 n str). rewrite <- Hs at 1.
    apply substring_split. lia.
  - intros [p ->]. rewrite length_append. split; [lia | ].
    replace (String.length p + String.length end_ - String.length end_)%nat
      with (String.length p) by lia.
    rewrite substring_skip_prefix. apply substring_all.
Qed.

(** Of two suffixes of one string, the shorter is a suffix of the longer. *)
Lemma common_suffixes (p q a e : string) :
  p ++ a = q ++ e -> (String.length e <= String.length a)%nat ->
  exists r : string, a = r ++ e.
Proof.
  revert q. induction p as [ | c p IH]; intros q H Hlen; simpl in H.
  - exists q. exact H.
  - destruct q as [ | c' q]; simpl in H.
    + exfalso. apply (f_equal String.length) in H. simpl in H.
      rewrite length_append in H. lia.
    + injection H as _ H. apply (IH q H Hlen).
Qed.

Lemma EndsWith_append (p a e : string) :
  EndsWith (p ++ a) e = true -> EndsWith a e = true \/ EndsWith e a = true.
Proof.
  intros H. apply EndsWith_spec in H. destruct H as [q H].
  destruct (Nat.le_ge_cases (String.length e) (String.length a)) as [L | L].
  - left. apply EndsWith_spec. apply (common_suffixes p q a e H L).
  - right. apply EndsWith_spec. symmetry in H. apply (common_suffixes q p e a H L).
Qed.

(** A string that ends in [a] does not end in [e] when neither of [a] and [e]
    is a suffix of the other. *)
Lemma EndsWith_other_suffix (p a e : string) :
  EndsWith a e = false -> EndsWith e a = false -> EndsWith (p ++ a) e = false.
Proof.
  intros H1 H2. destruct (EndsWith (p ++ a) e) eqn:E; [ | reflexivity].
  apply EndsWith_append in E. destruct E; congruence.
Qed.

Lemma append_neq (p a s : string) : EndsWith s a = false -> p ++ a <> s.
Proof.
  intros H E. assert (EndsWith s a = true) by (apply EndsWith_spec; eauto).
  congruence.
Qed.

Lemma not_contains_longer (hay needle : string) :
  (String.length hay < String.length needle)%nat -> ~ contains hay needle.
Proof.
  intros H (pre & post & E). apply (f_equal String.length) in E.
  rewrite !length_append in E. lia.
Qed.

(** ** Runs of a program *)

Section Runs.

Context {V : Vips}.

Lemma always_weaken {A : Type} (p : Prog A) (P Q : list Event -> A -> Prop) :
  always p P -> (forall t a, P t a -> Q t a) -> always p Q.
Proof.
  revert P Q. induction p as [a | c k IH]; intros P Q HP HPQ; simpl in *.
  - apply HPQ, HP.
  - intros r. apply (IH r _ _ (HP r)). intros t a. apply HPQ.
Qed.

Lemma always_trivial {A : Type} (p : Prog A) : always p (fun _ _ => True).
Proof. induction p as [a | c k IH]; simpl; [exact I | intros r; apply IH]. Qed.

(** A program that starts with a call has that call first in every run. *)
Lemma first_call {A : Type} (c : VipsCall) (k : reply c -> Prog A) :
  always (Call c k) (fun t _ =>
    exists (r : reply c) (rest : list Event), t = Build_Event c r :: rest).
Proof.
  simpl. intros r. eapply always_weaken; [apply always_trivial | ].
  intros t a _. exists r, t. reflexivity.
Qed.

(** What holds of every run holds of the run against any given library. *)
Lemma run_always {W A : Type} (lib : Library W) (p : Prog A)
  (post : list Event -> A -> Prop) (w : W) :
  always p post ->
  forall a w1 t, run lib p w = (a, w1, t) -> post t a.
Proof.
  revert post w. induction p as [a0 | c k IH]; intros post w H a w1 t E; simpl in *.
  - injection E as <- _ <-. exact H.
  - destruct (lib c w) as [r w0].
    destruct (run lib (k r) w0) as [[a' w'] t'] eqn:E'.
    injection E as <- _ <-.
    apply (IH r _ w0 (H r) a' w' t' E').
Qed.

End Runs.

(** One step through a program under [always]: unfold the stage, take the
    reply, split on what sharp.cc tests. *)
Ltac prog_unfold :=
  unfold ResizeAsync, decoded, resample_stage, canvas_stage,
         sharpen_stage, write_output, vips_failure;
  cbn [always bind call].

Ltac prog_step :=
  first
    [ progress prog_unfold
    | match goal with
      | |- forall _ : reply _, _ => let r := fresh "r" in intro r; cbn [reply] in r
      | r : (_ * _)%type |- _ => destruct r
      | |- context [if failed ?rc then _ else _] =>
          let F := fresh "F" in destruct (failed rc) eqn:F
      | |- context [match ?x with Some _ => _ | None => _ end] => destruct x
      | |- context [if ?b then _ else _] =>
          let B := fresh "B" in destruct b eqn:B
      end ].

Ltac prog_walk := repeat prog_step.

(** ** The request is delivered once *)

Section Completion.

Context {R : Rounding} {V : Vips}.

(** The worker keeps the request's destination and callback, and touches the
    output buffer only for a buffer destination. *)
Lemma ResizeAsync_keeps_request (baton : ResizeBaton) :
  always (ResizeAsync baton) (fun _ done =>
    dst done = dst baton /\ callback done = callback baton /\
    (buffer_out_len done <> buffer_out_len baton -> buffer_sentinel (dst baton))).
Proof.
  unfold buffer_sentinel.
  prog_walk; cbn; repeat split; try congruence;
    intros _;
    repeat match goal with
           | H : String.eqb _ _ = true |- _ => apply String.eqb_eq in H
           end; auto.
Qed.

End Completion.

Section CompletionTheorems.

Context {R : Rounding} {V : Vips} {W : Type}.

Lemma err_nonempty_spec (baton : ResizeBaton) :
  err_nonempty baton = true <-> err baton <> "".
Proof.
  unfold err_nonempty. destruct (err baton) as [ | c s]; simpl; split;
    congruence.
Qed.

(** C1, as amended.  For every submitted request the completion callback is
    called exactly once.  Its two arguments are either a non-empty error
    string and no buffer, or no error and a buffer that is present only when
    the destination, as line 192 reads it (the bytes of the argument up to
    its first NUL byte), is one of the two buffer sentinels; for any other
    destination a call without error has both arguments null. *)
Theorem callback_once_with_exclusive_outcome
  (lib : Library W) (w : W) (fresh : Indeterminate) (args : Arguments) :
  exists cb : CallbackCall,
    fst (fst (resize lib w fresh args)) = [cb] /\
    called cb = arg_callback args /\
    ((exists e : string, argv0 cb = Some e /\ e <> "" /\ argv1 cb = None) \/
     (argv0 cb = None /\
      (argv1 cb <> None -> buffer_sentinel (from_char_ptr (arg_dst args))))) /\
    (~ buffer_sentinel (from_char_ptr (arg_dst args)) ->
     argv0 cb = None -> argv1 cb = None).
Proof.
  unfold resize, uv_queue_work.
  destruct (run lib (ResizeAsync (Resize fresh args)) w) as [[done w1] t] eqn:E.
  pose proof (run_always lib _ _ w (ResizeAsync_keeps_request (Resize fresh args))
                _ _ _ E) as (Hdst & Hcb & Hbuf).
  cbn [Resize dst callback buffer_out_len new_ResizeBaton] in Hdst, Hcb, Hbuf.
  cbn [fst ResizeAsyncAfter]. eexists. split; [reflexivity | ].
  cbn [called argv0 argv1]. split; [exact Hcb | ].
  assert (Hsent : (0 <? buffer_out_len done)%N = true ->
                  buffer_sentinel (from_char_ptr (arg_dst args))).
  { intros H. apply Hbuf. apply N.ltb_lt in H. lia. }
  destruct (err_nonempty done) eqn:En.
  - split.
    + left. exists (err done). repeat split. now apply err_nonempty_spec.
    + discriminate.
  - destruct (0 <? buffer_out_len done)%N eqn:El.
    + split.
      * right. split; [reflexivity | ]. intros _. now apply Hsent.
      * intros Hn _. exfalso. apply Hn. now apply Hsent.
    + split.
      * right. split; [reflexivity | ]. intros H. now elim H.
      * reflexivity.
Qed.

End CompletionTheorems.

(** C1, as stated, fails: the destination made of "__jpeg", a NUL byte and
    "x" is not a buffer sentinel, yet line 192 keeps "__jpeg" of it, line 134
    takes the buffer branch, and the callback gets a buffer and no error. *)
Lemma buffer_for_destination_cut_at_NUL :
  let args := example_request "in.jpg" ("__jpeg" ++ String zero "x") "c" 100 100 in
  ~ buffer_sentinel (arg_dst args) /\
  fst (fst (@resize binary64_rounding sizes_only unit
              (stand_in (Some (1000, 600))) tt example_fresh args))
  = [ {| called := js_function 1;
         argv0 := None;
         argv1 := Some [xff; xd8; xff] |} ].
Proof.
  cbv zeta. split.
  - intros [H | H]; discriminate H.
  - vm_compute. reflexivity.
Qed.

(** ** Unsupported file types *)

Lemma supported_suffix_spec (s : string) :
  supported_suffix s <->
  (EndsWith s ".jpg" || EndsWith s ".jpeg") || EndsWith s ".png" = true.
Proof.
  unfold supported_suffix. rewrite !orb_true_iff, !EndsWith_spec. tauto.
Qed.

Lemma buffer_sentinel_spec (d : string) :
  buffer_sentinel d <-> String.eqb d "__jpeg" || String.eqb d "__png" = true.
Proof.
  unfold buffer_sentinel. rewrite orb_true_iff, !String.eqb_eq. tauto.
Qed.

Section Observed.

Context {V : Vips}.

Lemma no_failure_cons (e : Event) (t : list Event) :
  no_failure (e :: t) <-> reports_failure e = false /\ no_failure t.
Proof.
  unfold no_failure. split.
  - intros H. inversion H; subst. now split.
  - intros [H1 H2]. now constructor.
Qed.

Lemma error_texts_nonempty_cons (e : Event) (t : list Event) :
  error_texts_nonempty (e :: t) <-> empty_error_text e = false /\ error_texts_nonempty t.
Proof.
  unfold error_texts_nonempty. split.
  - intros H. inversion H; subst. now split.
  - intros [H1 H2]. now constructor.
Qed.

End Observed.

(** Break a hypothesis on the events of a run into facts on the replies. *)
Ltac observe H :=
  repeat (rewrite no_failure_cons in H || rewrite error_texts_nonempty_cons in H);
  cbn [reports_failure empty_error_text fst snd] in H.

Section FileTypes.

Context {R : Rounding} {V : Vips}.

Lemma unsupported_input_run (baton : ResizeBaton) :
  ~ supported_suffix (src baton) ->
  always (ResizeAsync baton) (fun t done =>
    done = err_append baton "Unsupported input file type" /\
    exists in_ : option VipsImage,
      t = [Build_Event (vips_image_new_mode (src baton) "p") in_]).
Proof.
  intros H. rewrite supported_suffix_spec in H. unfold ResizeAsync.
  cbn [always bind call]. intros in_.
  destruct (EndsWith (src baton) ".jpg" || EndsWith (src baton) ".jpeg") eqn:E1.
  - elim H. reflexivity.
  - destruct (EndsWith (src baton) ".png") eqn:E2.
    + elim H. reflexivity.
    + cbn. split; [reflexivity | ]. exists in_. reflexivity.
Qed.

Lemma unsupported_output_run (baton : ResizeBaton) :
  supported_suffix (src baton) ->
  ~ buffer_sentinel (dst baton) -> ~ supported_suffix (dst baton) ->
  always (ResizeAsync baton) (fun t done =>
    no_failure t -> done = err_append baton "Unsupported output file type").
Proof.
  intros Hsrc Hsent Hdst.
  rewrite buffer_sentinel_spec in Hsent. rewrite supported_suffix_spec in Hsrc, Hdst.
  prog_walk; cbn; intros Hnf; observe Hnf;
    try reflexivity;
    try (exfalso; intuition congruence);
    try (exfalso; apply Hsent; simpl;
         repeat match goal with H : _ = true |- _ => rewrite H end;
         rewrite ?orb_true_r; reflexivity);
    try (exfalso; apply Hdst; simpl;
         repeat match goal with H : _ = true |- _ => rewrite H end;
         rewrite ?orb_true_r; reflexivity).
  all: exfalso; simpl in Hsrc;
    repeat match goal with H : _ = false |- _ => rewrite H in Hsrc end;
    discriminate.
Qed.

End FileTypes.

Section FileTypeTheorems.

Context {R : Rounding} {V : Vips} {W : Type}.

(** C6, as amended.  The source and the destination are the paths as lines
    191-192 read them: the bytes of each argument up to its first NUL byte.
    A source whose suffix is not .jpg, .jpeg or .png is answered with the
    error "Unsupported input file type", that text exactly, and no buffer,
    and nothing is called in libvips after the image was opened.  A
    destination that is neither a buffer sentinel nor a path in .jpg, .jpeg
    or .png is answered with the error "Unsupported output file type" and no
    buffer when the source has a supported suffix and libvips reported no
    failure while decoding and transforming. *)
Theorem unsupported_types_rejected
  (lib : Library W) (w : W) (fresh : Indeterminate) (args : Arguments)
  (cbs : list CallbackCall) (w1 : W) (t : list Event) :
  resize lib w fresh args = (cbs, w1, t) ->
  (~ supported_suffix (from_char_ptr (arg_src args)) ->
     cbs = [ {| called := arg_callback args;
                argv0 := Some "Unsupported input file type";
                argv1 := None |} ] /\
     exists in_ : option VipsImage,
       t = [Build_Event (vips_image_new_mode (from_char_ptr (arg_src args)) "p") in_]) /\
  (supported_suffix (from_char_ptr (arg_src args)) -> no_failure t ->
   ~ buffer_sentinel (from_char_ptr (arg_dst args)) ->
   ~ supported_suffix (from_char_ptr (arg_dst args)) ->
     cbs = [ {| called := arg_callback args;
                argv0 := Some "Unsupported output file type";
                argv1 := None |} ]).
Proof.
  unfold resize, uv_queue_work. intros E.
  destruct (run lib (ResizeAsync (Resize fresh args)) w) as [[done w2] t'] eqn:Erun.
  injection E as <- <- <-. split.
  - intros Hsrc.
    pose proof (run_always lib _ _ w
                  (unsupported_input_run (Resize fresh args) Hsrc) _ _ _ Erun)
      as [-> Ht].
    split; [reflexivity | exact Ht].
  - intros Hsrc Hnf Hsent Hdst.
    pose proof (run_always lib _ _ w
                  (unsupported_output_run (Resize fresh args) Hsrc Hsent Hdst)
                  _ _ _ Erun Hnf) as ->.
    reflexivity.
Qed.

End FileTypeTheorems.

Lemma not_supported_suffix (s : string) :
  (EndsWith s ".jpg" || EndsWith s ".jpeg") || EndsWith s ".png" = false ->
  ~ supported_suffix s.
Proof. rewrite supported_suffix_spec. congruence. Qed.

Lemma is_supported_suffix (s : string) :
  (EndsWith s ".jpg" || EndsWith s ".jpeg") || EndsWith s ".png" = true ->
  supported_suffix s.
Proof. rewrite supported_suffix_spec. congruence. Qed.

Lemma not_buffer_sentinel (d : string) :
  String.eqb d "__jpeg" || String.eqb d "__png" = false -> ~ buffer_sentinel d.
Proof. rewrite buffer_sentinel_spec. congruence. Qed.

Lemma no_failure_decide {V : Vips} (t : list Event) :
  forallb (fun e => negb (reports_failure e)) t = true -> no_failure t.
Proof.
  unfold no_failure. rewrite forallb_forall, Forall_forall.
  intros H e He. apply H in He. now apply negb_true_iff.
Qed.

(** C6, as stated, fails: for the source "in.gif" and the destination
    "out.bmp" the error is the one for the input, and it does not contain
    "Unsupported output file type". *)
Lemma unsupported_output_hidden_by_unsupported_input :
  let args := example_request "in.gif" "out.bmp" "c" 10 10 in
  ~ buffer_sentinel (arg_dst args) /\ ~ supported_suffix (arg_dst args) /\
  fst (fst (@resize binary64_rounding sizes_only unit
              (stand_in (Some (38, 38))) tt example_fresh args))
  = [ {| called := js_function 1;
         argv0 := Some "Unsupported input file type";
         argv1 := None |} ] /\
  ~ contains "Unsupported input file type" "Unsupported output file type".
Proof.
  cbv zeta. split; [ | split; [ | split]].
  - apply not_buffer_sentinel. reflexivity.
  - apply not_supported_suffix. reflexivity.
  - reflexivity.
  - apply not_contains_longer. simpl. lia.
Qed.

Lemma unsupported_types_rejected_witness :
  (let args := example_request "in.gif" "out.png" "c" 10 10 in
   fst (fst (@resize binary64_rounding sizes_only unit
               (stand_in (Some (38, 38))) tt example_fresh args))
   = [ {| called := js_function 1;
          argv0 := Some "Unsupported input file type";
          argv1 := None |} ]) /\
  (let args := example_request "in.png" "out.bmp" "w" 10 10 in
   fst (fst (@resize binary64_rounding sizes_only unit
               (stand_in (Some (38, 38))) tt example_fresh args))
   = [ {| called := js_function 1;
          argv0 := Some "Unsupported output file type";
          argv1 := None |} ]).
Proof.
  cbv zeta. split.
  - destruct (@resize binary64_rounding sizes_only unit (stand_in (Some (38, 38))) tt
                example_fresh (example_request "in.gif" "out.png" "c" 10 10))
      as [[cbs w1] t] eqn:E.
    apply (@unsupported_types_rejected binary64_rounding sizes_only unit
             _ _ _ _ cbs w1 t E).
    apply not_supported_suffix. reflexivity.
  - destruct (@resize binary64_rounding sizes_only unit (stand_in (Some (38, 38))) tt
                example_fresh (example_request "in.png" "out.bmp" "w" 10 10))
      as [[cbs w1] t] eqn:E.
    apply (@unsupported_types_rejected binary64_rounding sizes_only unit
             _ _ _ _ cbs w1 t E).
    + apply is_supported_suffix. reflexivity.
    + apply no_failure_decide.
      vm_compute in E. injection E as _ _ <-. reflexivity.
    + apply not_buffer_sentinel. reflexivity.
    + apply not_supported_suffix. reflexivity.
Defined.

(** ** The sharpening pass *)

Section Sharpen.

Context {R : Rounding} {V : Vips}.

(** A run that leaves no error, and in which libvips had a text for every
    failure, ends with the convolution by [sharpen] and the save of its
    result. *)
Lemma completed_run_ends_in_sharpen (baton : ResizeBaton) :
  err baton = "" ->
  always (ResizeAsync baton) (fun t done =>
    err done = "" -> error_texts_nonempty t ->
    exists (pre : list Event) (img out : VipsImage) (c : VipsCall) (r : reply c),
      t = (pre ++ [Build_Event (im_conv img sharpen) (0, out); Build_Event c r])%list /\
      saves out c /\ reports_failure (Build_Event c r) = false).
Proof.
  intros Herr.
  prog_walk; cbn; rewrite ?Herr; cbn; intros Hdone Htexts; observe Htexts;
    try discriminate;
    try (exfalso; subst; cbn in Htexts; intuition discriminate).
  all: repeat match goal with
         | F : failed ?rc = false |- _ =>
             unfold failed in F; apply negb_false_iff, Z.eqb_eq in F; subst rc
         end.
  all: match goal with
       | |- exists pre img out c r,
             ?e1 :: ?e2 :: ?e3 :: ?e4 :: ?e5 :: ?e6 :: ?e7 :: [Build_Event ?c0 ?r0] = _ /\ _ =>
           exists [e1; e2; e3; e4; e5; e6]; do 2 eexists; exists c0, r0;
           split; [reflexivity | split; reflexivity]
       end.
Qed.

(** libvips is asked for its error text only after a failure: a run without
    failure has no error text in it, empty or not. *)
Lemma no_failure_no_error_text (baton : ResizeBaton) :
  always (ResizeAsync baton) (fun t _ => no_failure t -> error_texts_nonempty t).
Proof.
  prog_walk; cbn; intros Hnf; observe Hnf;
    try (exfalso; intuition congruence);
    unfold error_texts_nonempty; repeat constructor.
Qed.

End Sharpen.

Section SharpenTheorem.

Context {R : Rounding} {V : Vips} {W : Type}.

(** C7.  On every successful resize, whatever the policy and the scale, the
    last transform is a convolution with the fixed 3x3 kernel whose centre
    weight is 32, whose eight neighbours weigh -1 and whose divisor is 24:
    the calls into libvips end with that convolution, which succeeds, and
    with the save of its result.  A resize is successful when the callback
    gets no error; libvips is taken to have an error text for each failure
    that it reports, which is the case in particular when it reports none
    ([no_failure_no_error_text]). *)
Theorem sharpen_is_final_transform
  (lib : Library W) (w : W) (fresh : Indeterminate) (args : Arguments)
  (cbs : list CallbackCall) (w1 : W) (t : list Event) :
  resize lib w fresh args = (cbs, w1, t) ->
  error_texts_nonempty t ->
  Forall (fun cb => argv0 cb = None) cbs ->
  (xsize sharpen = 3 /\ ysize sharpen = 3 /\ scale sharpen = 24 /\
   coeff sharpen = [ -1; -1; -1;
                     -1; 32; -1;
                     -1; -1; -1 ]%Z) /\
  exists (pre : list Event) (img out : VipsImage) (c : VipsCall) (r : reply c),
    t = (pre ++ [Build_Event (im_conv img sharpen) (0, out); Build_Event c r])%list /\
    saves out c /\ reports_failure (Build_Event c r) = false.
Proof.
  unfold resize, uv_queue_work. intros E Htexts Hok.
  destruct (run lib (ResizeAsync (Resize fresh args)) w) as [[done w2] t'] eqn:Erun.
  injection E as <- <- <-.
  split; [repeat split | ].
  apply (run_always lib _ _ w
           (completed_run_ends_in_sharpen (Resize fresh args) eq_refl) _ _ _ Erun);
    [ | exact Htexts].
  unfold ResizeAsyncAfter in Hok. inversion Hok as [ | cb l Hcb _]; subst.
  cbn [argv0] in Hcb. destruct (err_nonempty done) eqn:En; [discriminate | ].
  destruct (err done) eqn:Ed; [reflexivity | ].
  unfold err_nonempty in En. rewrite Ed in En. discriminate.
Qed.

End SharpenTheorem.

Lemma error_texts_nonempty_decide {V : Vips} (t : list Event) :
  forallb (fun e => negb (empty_error_text e)) t = true -> error_texts_nonempty t.
Proof.
  unfold error_texts_nonempty. rewrite forallb_forall, Forall_forall.
  intros H e He. apply H in He. now apply negb_true_iff.
Qed.

Lemma sharpen_is_final_transform_witness :
  let run1 := @resize binary64_rounding sizes_only unit (stand_in (Some (1000, 600))) tt
                example_fresh (example_request "in.jpg" "out.png" "c" 100 100) in
  exists (pre : list (@Event sizes_only)) (img out : @VipsImage sizes_only)
         (c : @VipsCall sizes_only) (r : @reply sizes_only c),
    snd run1 =
    (pre ++ [ @Build_Event sizes_only (@im_conv sizes_only img sharpen) (0, out);
              @Build_Event sizes_only c r ])%list /\
    @saves sizes_only out c.
Proof.
  cbv zeta.
  destruct (@resize binary64_rounding sizes_only unit (stand_in (Some (1000, 600))) tt
              example_fresh (example_request "in.jpg" "out.png" "c" 100 100))
    as [[cbs w1] t] eqn:E.
  destruct (@sharpen_is_final_transform binary64_rounding sizes_only unit
              _ _ _ _ cbs w1 t E) as (_ & pre & img & out & c & r & Ht & Hs & _).
  - apply error_texts_nonempty_decide.
    vm_compute in E. injection E as _ _ <-. reflexivity.
  - vm_compute in E. injection E as <- _ _. repeat constructor.
  - exists pre, img, out, c, r. split; [exact Ht | exact Hs].
Defined.

(** ** The canvas argument *)

Section Canvas.

Context {R : Rounding} {V : Vips}.

(** The canvas stage starts with the crop when [crop] is set and with the
    embed, on the background [embed], when it is not. *)
Lemma canvas_stage_first_call (baton : ResizeBaton) (img : VipsImage) :
  always (canvas_stage baton img) (fun t _ =>
    exists (c : VipsCall) (r : reply c) (rest : list Event),
      t = Build_Event c r :: rest /\
      c = if crop baton
          then let a := Geometry.crop_rect (Xsize img) (Ysize img) (cols baton) (rows baton) in
               im_extract_area img (Geometry.left a) (Geometry.top a)
                               (Geometry.width a) (Geometry.height a)
          else let a := Geometry.embed_rect (Xsize img) (Ysize img) (cols baton) (rows baton) in
               im_embed img (embed baton) (Geometry.left a) (Geometry.top a)
                        (Geometry.width a) (Geometry.height a)).
Proof.
  unfold canvas_stage. destruct (crop baton); cbn [bind call];
    (eapply always_weaken; [apply first_call | ]);
    intros t a (r & rest & ->); eexists _, r, rest; split; reflexivity.
Qed.

(** C8.  When the canvas argument is none of "c", "w" and "b", [Resize]
    writes neither the crop flag nor the embed background: both stay as the
    allocation left them.  The request is not rejected: it carries no error
    when it is queued, and the worker's canvas stage takes the crop or the
    embed branch, and the embed background, from those unset members. *)
Theorem unknown_canvas_leaves_policy_unset
  (fresh : Indeterminate) (args : Arguments) (img : VipsImage) :
  arg_canvas args <> "c" -> arg_canvas args <> "w" -> arg_canvas args <> "b" ->
  let baton := Resize fresh args in
  crop baton = ind_crop fresh /\
  embed baton = ind_embed fresh /\
  err baton = "" /\
  always (canvas_stage baton img) (fun t _ =>
    exists (c : VipsCall) (r : reply c) (rest : list Event),
      t = Build_Event c r :: rest /\
      c = if ind_crop fresh
          then let a := Geometry.crop_rect (Xsize img) (Ysize img)
                                           (arg_cols args) (arg_rows args) in
               im_extract_area img (Geometry.left a) (Geometry.top a)
                               (Geometry.width a) (Geometry.height a)
          else let a := Geometry.embed_rect (Xsize img) (Ysize img)
                                            (arg_cols args) (arg_rows args) in
               im_embed img (ind_embed fresh) (Geometry.left a) (Geometry.top a)
                        (Geometry.width a) (Geometry.height a)).
Proof.
  intros Hc Hw Hb baton.
  assert (Ecrop : crop baton = ind_crop fresh).
  { subst baton. cbn [Resize crop new_ResizeBaton]. unfold canvas_crop.
    apply String.eqb_neq in Hc, Hw, Hb. now rewrite Hc, Hw, Hb. }
  assert (Eembed : embed baton = ind_embed fresh).
  { subst baton. cbn [Resize embed new_ResizeBaton]. unfold canvas_embed.
    apply String.eqb_neq in Hc, Hw, Hb. now rewrite Hc, Hw, Hb. }
  split; [exact Ecrop | split; [exact Eembed | split; [reflexivity | ]]].
  pose proof (canvas_stage_first_call baton img) as H.
  rewrite Ecrop, Eembed in H. exact H.
Qed.

End Canvas.

Section Targets.

Context {R : Rounding} {V : Vips}.

(** C5, as amended.  Targets that are 0 or negative are treated as 1 where the
    factors are computed: the divisors are the targets clamped to at least 1
    and are positive.  The canvas stage takes [cols] and [rows] as the request
    gives them: the crop extracts min(width of the image, cols) by
    min(height of the image, rows), and the embed asks for a canvas of [cols]
    by [rows]. *)
Theorem targets_clamped_in_factors_only
  (X Y : Z) (baton : ResizeBaton) (img : VipsImage) :
  0 < Z.max (cols baton) 1 /\ 0 < Z.max (rows baton) 1 /\
  Geometry.xfactor X (cols baton)
    = round (inject_Z X / inject_Z (Z.max (cols baton) 1)) /\
  Geometry.yfactor Y (rows baton)
    = round (inject_Z Y / inject_Z (Z.max (rows baton) 1)) /\
  always (canvas_stage baton img) (fun t _ =>
    exists (c : VipsCall) (r : reply c) (rest : list Event) (x y width height : Z),
      t = Build_Event c r :: rest /\
      (c = if crop baton
           then im_extract_area img x y width height
           else im_embed img (embed baton) x y width height) /\
      (width, height) =
        if crop baton
        then (Z.min (Xsize img) (cols baton), Z.min (Ysize img) (rows baton))
        else (cols baton, rows baton)).
Proof.
  split; [lia | split; [lia | ]].
  unfold Geometry.xfactor, Geometry.yfactor, Double.div, Double.of_int.
  rewrite !int_max_spec. split; [reflexivity | split; [reflexivity | ]].
  eapply always_weaken; [apply canvas_stage_first_call | ].
  intros t _ (c & r & rest & -> & ->). cbv zeta.
  destruct (crop baton); eexists _, r, rest, _, _, _, _;
    (split; [reflexivity | split; [reflexivity | ]]);
    cbn [Geometry.crop_rect Geometry.embed_rect Geometry.width Geometry.height];
    rewrite ?int_min_spec; reflexivity.
Qed.

End Targets.

(** C5, as stated, fails: with the targets 0 and -3 the crop stage asks for an
    area 0 wide and -3 high, and the embed stage for a canvas of 0 by -3;
    neither is what the targets 1 and 1 give. *)
Lemma targets_not_clamped_after_factors :
  let r := Geometry.crop_rect 10 10 0 (-3) in
  let e := Geometry.embed_rect 10 10 0 (-3) in
  r = {| Geometry.left := 5; Geometry.top := 7;
         Geometry.width := 0; Geometry.height := -3 |} /\
  r <> Geometry.crop_rect 10 10 1 1 /\
  ~ (0 < Geometry.width r /\ 0 < Geometry.height r) /\
  e = {| Geometry.left := -5; Geometry.top := -6;
         Geometry.width := 0; Geometry.height := -3 |} /\
  e <> Geometry.embed_rect 10 10 1 1 /\
  ~ (0 < Geometry.width e /\ 0 < Geometry.height e) /\
  let baton := Resize example_fresh (example_request "in.jpg" "out.jpg" "c" 0 (-3)) in
  hd_error (snd (run (stand_in None) (@canvas_stage sizes_only baton (10, 10)) tt))
  = Some (@Build_Event sizes_only (@im_extract_area sizes_only (10, 10) 5 7 0 (-3))
                                  (0, (0, -3))).
Proof.
  cbv zeta. repeat split; try reflexivity; vm_compute; try discriminate.
  - intros [H _]. discriminate H.
  - intros [H _]. discriminate H.
Qed.

Lemma unknown_canvas_leaves_policy_unset_witness :
  let args := example_request "in.jpg" "out.jpg" "x" 100 100 in
  arg_canvas args <> "c" /\ arg_canvas args <> "w" /\ arg_canvas args <> "b" /\
  crop (Resize example_fresh args) = true /\
  embed (Resize example_fresh args) = 77.
Proof.
  cbv zeta.
  assert (H1 : arg_canvas (example_request "in.jpg" "out.jpg" "x" 100 100) <> "c")
    by discriminate.
  assert (H2 : arg_canvas (example_request "in.jpg" "out.jpg" "x" 100 100) <> "w")
    by discriminate.
  assert (H3 : arg_canvas (example_request "in.jpg" "out.jpg" "x" 100 100) <> "b")
    by discriminate.
  destruct (@unknown_canvas_leaves_policy_unset sizes_only example_fresh
              (example_request "in.jpg" "out.jpg" "x" 100 100) (9, 9) H1 H2 H3)
    as (Hcrop & Hembed & _).
  repeat split; assumption.
Defined.

(** ** Upper-case suffixes *)

Ltac other_suffix := apply EndsWith_other_suffix; reflexivity.

(** A spelling with upper-case letters is none of the supported suffixes
    and none of the buffer sentinels. *)
Lemma upper_case_not_matched (p upper lower : string) :
  In (upper, lower) upper_and_lower_case ->
  ~ supported_suffix (p ++ upper) /\ ~ buffer_sentinel (p ++ upper).
Proof.
  intros H.
  assert (Hu : upper = ".JPG" \/ upper = ".JPEG" \/ upper = ".Jpeg" \/ upper = ".PNG")
    by (simpl in H; intuition congruence).
  split.
  - apply not_supported_suffix. rewrite !orb_false_iff.
    destruct Hu as [-> | [-> | [-> | ->]]]; repeat split; other_suffix.
  - apply not_buffer_sentinel. rewrite orb_false_iff, !String.eqb_neq.
    destruct Hu as [-> | [-> | [-> | ->]]]; split; apply append_neq; reflexivity.
Qed.

(** The lower-case spelling is a supported suffix and no buffer sentinel. *)
Lemma lower_case_matched (p upper lower : string) :
  In (upper, lower) upper_and_lower_case ->
  supported_suffix (p ++ lower) /\ ~ buffer_sentinel (p ++ lower).
Proof.
  intros H.
  assert (Hl : lower = ".jpg" \/ lower = ".jpeg" \/ lower = ".png")
    by (simpl in H; intuition congruence).
  split.
  - unfold supported_suffix. destruct Hl as [-> | [-> | ->]]; eauto.
  - apply not_buffer_sentinel. rewrite orb_false_iff, !String.eqb_neq.
    destruct Hl as [-> | [-> | ->]]; split; apply append_neq; reflexivity.
Qed.

Section Dispatch.

Context {R : Rounding} {V : Vips}.

(** With an unsupported destination the output stage calls nothing and
    leaves the error. *)
Lemma write_output_unsupported (baton : ResizeBaton) (img : VipsImage) :
  ~ buffer_sentinel (dst baton) -> ~ supported_suffix (dst baton) ->
  write_output baton img = Ret (err_append baton "Unsupported output file type").
Proof.
  rewrite buffer_sentinel_spec, supported_suffix_spec. intros Hs Hd.
  unfold write_output.
  destruct (String.eqb (dst baton) "__jpeg"); [elim Hs; reflexivity | ].
  destruct (String.eqb (dst baton) "__png"); [elim Hs; reflexivity | ].
  destruct (EndsWith (dst baton) ".jpg" || EndsWith (dst baton) ".jpeg");
    [elim Hd; reflexivity | ].
  destruct (EndsWith (dst baton) ".png"); [elim Hd; reflexivity | ].
  reflexivity.
Qed.

(** With a supported path as destination the output stage saves to it. *)
Lemma write_output_supported (baton : ResizeBaton) (img : VipsImage) :
  ~ buffer_sentinel (dst baton) -> supported_suffix (dst baton) ->
  always (write_output baton img) (fun t _ =>
    exists (options : list (string * Z)) (rc : Z) (rest : list Event),
      t = Build_Event (vips_foreign_save img (dst baton) options) rc :: rest).
Proof.
  rewrite buffer_sentinel_spec, supported_suffix_spec. intros Hs Hd.
  unfold write_output.
  destruct (String.eqb (dst baton) "__jpeg"); [elim Hs; reflexivity | ].
  destruct (String.eqb (dst baton) "__png"); [elim Hs; reflexivity | ].
  destruct (EndsWith (dst baton) ".jpg" || EndsWith (dst baton) ".jpeg").
  - cbn [bind call]. eapply always_weaken; [apply first_call | ].
    intros t a (r & rest & ->). now exists jpeg_options, r, rest.
  - destruct (EndsWith (dst baton) ".png"); [ | discriminate Hd].
    cbn [bind call]. eapply always_weaken; [apply first_call | ].
    intros t a (r & rest & ->). now exists png_options, r, rest.
Qed.

(** With a supported source the worker goes on to the decoder. *)
Lemma supported_input_run (baton : ResizeBaton) :
  supported_suffix (src baton) ->
  always (ResizeAsync baton) (fun t _ =>
    exists (in0 in1 : option VipsImage) (rest : list Event),
      t = Build_Event (vips_image_new_mode (src baton) "p") in0
          :: Build_Event (vips_jpegload (src baton) in0) in1 :: rest \/
      t = Build_Event (vips_image_new_mode (src baton) "p") in0
          :: Build_Event (vips_pngload (src baton) in0) in1 :: rest).
Proof.
  rewrite supported_suffix_spec. intros Hs. unfold ResizeAsync.
  cbn [always bind call]. intros in0.
  destruct (EndsWith (src baton) ".jpg" || EndsWith (src baton) ".jpeg").
  - cbn [always bind call]. intros in1.
    eapply always_weaken; [apply always_trivial | ].
    intros t a _. exists in0, in1, t. now left.
  - destruct (EndsWith (src baton) ".png"); [ | discriminate Hs].
    cbn [always bind call]. intros in1.
    eapply always_weaken; [apply always_trivial | ].
    intros t a _. exists in0, in1, t. now right.
Qed.

(** C9.  Suffixes are matched by exact comparison of the characters, for the
    source and for the destination.  A source that ends in ".JPG", ".JPEG",
    ".Jpeg" or ".PNG" is rejected with "Unsupported input file type"; a
    destination with such an ending takes the output stage to
    "Unsupported output file type", which is the error of every run that
    gets there, that is, with a supported source and no failure in libvips;
    with the lower-case spelling in its place the source goes on to the
    decoder and the destination is saved to. *)
Theorem suffix_match_is_case_sensitive
  (p upper lower : string) (baton : ResizeBaton) (img : VipsImage) :
  In (upper, lower) upper_and_lower_case ->
  (forall str end_ : string,
     EndsWith str end_ = true <-> exists q : string, str = q ++ end_) /\
  (src baton = p ++ upper ->
     always (ResizeAsync baton) (fun t done =>
       done = err_append baton "Unsupported input file type")) /\
  (dst baton = p ++ upper ->
     write_output baton img = Ret (err_append baton "Unsupported output file type") /\
     (supported_suffix (src baton) ->
      always (ResizeAsync baton) (fun t done =>
        no_failure t -> done = err_append baton "Unsupported output file type"))) /\
  (src baton = p ++ lower ->
     always (ResizeAsync baton) (fun t _ =>
       exists (in0 in1 : option VipsImage) (rest : list Event),
         t = Build_Event (vips_image_new_mode (src baton) "p") in0
             :: Build_Event (vips_jpegload (src baton) in0) in1 :: rest \/
         t = Build_Event (vips_image_new_mode (src baton) "p") in0
             :: Build_Event (vips_pngload (src baton) in0) in1 :: rest)) /\
  (dst baton = p ++ lower ->
     always (write_output baton img) (fun t _ =>
       exists (options : list (string * Z)) (rc : Z) (rest : list Event),
         t = Build_Event (vips_foreign_save img (dst baton) options) rc :: rest)).
Proof.
  intros Hin.
  destruct (upper_case_not_matched p upper lower Hin) as [Hu1 Hu2].
  destruct (lower_case_matched p upper lower Hin) as [Hl1 Hl2].
  split; [exact EndsWith_spec | ].
  split; [ | split; [ | split]].
  - intros E. rewrite <- E in Hu1.
    eapply always_weaken; [apply (unsupported_input_run baton Hu1) | ].
    intros t a [H _]. exact H.
  - intros E. rewrite <- E in Hu1, Hu2. split.
    + now apply write_output_unsupported.
    + intros Hsrc. now apply unsupported_output_run.
  - intros E. rewrite <- E in Hl1. now apply supported_input_run.
  - intros E. rewrite <- E in Hl1, Hl2. now apply write_output_supported.
Qed.

End Dispatch.

(** ** The theorems at concrete requests *)

Lemma in_range_decide (z : Z) :
  ((Int.INT_MIN <=? z) && (z <=? Int.INT_MAX))%Z = true -> Int.in_range z.
Proof.
  unfold Int.in_range. rewrite andb_true_iff, !Z.leb_le. tauto.
Qed.

Lemma planner_factor_and_shrink_witness :
  Int.in_range 1000 /\ Int.in_range 600 /\
  (1 <= @Geometry.factor binary64_rounding 1000 600 100 100 true)%Q /\
  1 <= @Geometry.shrink binary64_rounding 1000 600 100 100 true.
Proof.
  assert (H1 : Int.in_range 1000) by (apply in_range_decide; reflexivity).
  assert (H2 : Int.in_range 600) by (apply in_range_decide; reflexivity).
  destruct (@planner_factor_and_shrink binary64_rounding 1000 600 100 100 true H1 H2)
    as (_ & _ & _ & Hf & _ & Hs).
  repeat split; assumption.
Defined.

Lemma residual_in_unit_interval_witness :
  Int.in_range 38 /\
  (0 < @Geometry.residual binary64_rounding 38 38 10 10 true <= 1)%Q /\
  (0 < @Geometry.residual exact_rounding 38 38 10 10 true <= 1)%Q.
Proof.
  assert (H1 : Int.in_range 38) by (apply in_range_decide; reflexivity).
  destruct (@residual_in_unit_interval binary64_rounding 38 38 10 10 true H1 H1)
    as (_ & Hlo & Hhi).
  destruct (@residual_in_unit_interval exact_rounding 38 38 10 10 true H1 H1)
    as (_ & Hlo' & Hhi').
  repeat split; assumption.
Defined.

Lemma crop_rect_inside_image_witness :
  let r := Geometry.crop_rect 166 100 100 100 in
  0 <= Geometry.left r /\ 0 <= Geometry.top r /\
  Geometry.left r + Geometry.width r <= 166 /\
  Geometry.top r + Geometry.height r <= 100.
Proof.
  assert (H1 : 1 <= 166 <= Int.INT_MAX) by (unfold Int.INT_MAX; lia).
  assert (H2 : 1 <= 100 <= Int.INT_MAX) by (unfold Int.INT_MAX; lia).
  assert (H3 : 1 <= 100) by lia.
  destruct (crop_rect_inside_image 166 100 100 100 H1 H2 H3 H3)
    as (_ & _ & _ & _ & Hl & Ht & Hw & Hh).
  cbv zeta. repeat split; assumption.
Defined.

Lemma suffix_match_is_case_sensitive_witness :
  let baton := Resize example_fresh (example_request "photo.JPG" "photo.JPG" "c" 10 10) in
  In (".JPG", ".jpg") upper_and_lower_case /\
  @write_output sizes_only baton (10, 10)
  = Ret (err_append baton "Unsupported output file type").
Proof.
  cbv zeta.
  assert (H : In (".JPG", ".jpg") upper_and_lower_case) by (left; reflexivity).
  split; [exact H | ].
  apply (@suffix_match_is_case_sensitive binary64_rounding sizes_only
           "photo" ".JPG" ".jpg" _ (10, 10) H).
  reflexivity.
Defined.

(** ** The model on concrete inputs *)

Example EndsWith_lower_case : EndsWith "photo.jpg" ".jpg" = true.
Proof. reflexivity. Qed.

Example EndsWith_upper_case : EndsWith "photo.JPG" ".jpg" = false.
Proof. reflexivity. Qed.

Example EndsWith_too_short : EndsWith "jpg" ".jpg" = false.
Proof. reflexivity. Qed.

Example crop_rect_centred :
  Geometry.crop_rect 166 100 100 100
  = {| Geometry.left := 33; Geometry.top := 0;
       Geometry.width := 100; Geometry.height := 100 |}.
Proof. reflexivity. Qed.

Example embed_rect_centred :
  Geometry.embed_rect 100 60 100 100
  = {| Geometry.left := 0; Geometry.top := 20;
       Geometry.width := 100; Geometry.height := 100 |}.
Proof. reflexivity. Qed.

(** 38 / 10 is not a binary64 number: the factor is the [double] next to it. *)
Example xfactor_38_10 :
  @Geometry.xfactor binary64_rounding 38 10 = 8556839292003942 # 2251799813685248.
Proof. vm_compute. reflexivity. Qed.

Example shrink_38_10 : @Geometry.shrink binary64_rounding 38 38 10 10 true = 3.
Proof. vm_compute. reflexivity. Qed.

Example shrink_1000_600 : @Geometry.shrink binary64_rounding 1000 600 100 100 true = 6.
Proof. vm_compute. reflexivity. Qed.

Example shrink_never_upscales : @Geometry.shrink binary64_rounding 50 50 100 100 false = 1.
Proof. vm_compute. reflexivity. Qed.

Example resize_to_png_file :
  fst (fst (@resize binary64_rounding sizes_only unit (stand_in (Some (1000, 600))) tt
              example_fresh (example_request "in.jpg" "out.png" "c" 100 100)))
  = [ {| called := js_function 1; argv0 := None; argv1 := None |} ].
Proof. vm_compute. reflexivity. Qed.

Example resize_to_jpeg_buffer :
  fst (fst (@resize binary64_rounding sizes_only unit (stand_in (Some (1000, 600))) tt
              example_fresh (example_request "in.png" "__jpeg" "w" 100 100)))
  = [ {| called := js_function 1; argv0 := None; argv1 := Some [xff; xd8; xff] |} ].
Proof. vm_compute. reflexivity. Qed.

Example resize_missing_file :
  fst (fst (@resize binary64_rounding sizes_only unit (stand_in None) tt
              example_fresh (example_request "in.jpg" "out.jpg" "b" 100 100)))
  = [ {| called := js_function 1;
         argv0 := Some "VipsJpeg: unable to open"; argv1 := None |} ].
Proof. vm_compute. reflexivity. Qed.

(** The size of the output follows the size of the resampled image, and that
    follows the library: from 38 by 38 to 10 by 10 under Crop, the shrink is
    by 3 and the residual scale is about 0.79. *)
Example crop_38_to_10_truncating_library :
  saved_image
    (snd (@resize binary64_rounding sizes_only unit (stand_in (Some (38, 38))) tt
            example_fresh (example_request "in.jpg" "out.jpg" "c" 10 10)))
  = Some (9, 9).
Proof. vm_compute. reflexivity. Qed.

Example crop_38_to_10_library_rounding_up :
  saved_image
    (snd (@resize binary64_rounding sizes_only unit (stand_in_rounding_up (Some (38, 38))) tt
            example_fresh (example_request "in.jpg" "out.jpg" "c" 10 10)))
  = Some (10, 10).
Proof. vm_compute. reflexivity. Qed.

Example crop_1000_to_100 :
  saved_image
    (snd (@resize binary64_rounding sizes_only unit (stand_in (Some (1000, 1000))) tt
            example_fresh (example_request "in.jpg" "out.jpg" "c" 100 100)))
  = Some (100, 100).
Proof. vm_compute. reflexivity. Qed.

(** * Further properties of the resize plan *)

Section MoreDoubleFacts.
Context {R : Rounding}.

Lemma round_proper (a b : Q) : (a == b)%Q -> (round a == round b)%Q.
Proof.
  intros H. apply Qle_antisym; apply round_monotone; rewrite H; apply Qle_refl.
Qed.

Lemma binary64_half : binary64 (1 # 2).
Proof. exists 1, (-1). split; [lia | split; [lia | ]]. reflexivity. Qed.

Lemma div_quotient_le_1 (n d : Z) :
  1 <= d -> n <= d -> (Double.div (Double.of_int n) (Double.of_int d) <= 1)%Q.
Proof.
  intros Hd Hn. unfold Double.div, Double.of_int.
  rewrite <- (round_int 1) by (unfold Int.in_range, Int.INT_MIN, Int.INT_MAX; lia).
  apply round_monotone. apply Qle_shift_div_r.
  - change 0%Q with (inject_Z 0). rewrite <- Zlt_Qlt. lia.
  - rewrite <- inject_Z_mult, <- Zle_Qle. lia.
Qed.

Lemma factor_spec (X Y cols rows : Z) (crop : bool) :
  (Geometry.factor X Y cols rows crop ==
   Qmax (if crop then Qmin (Geometry.xfactor X cols) (Geometry.yfactor Y rows)
         else Qmax (Geometry.xfactor X cols) (Geometry.yfactor Y rows)) 1)%Q.
Proof.
  unfold Geometry.factor. rewrite double_max_spec.
  apply Q.max_compat; [apply chosen_factor_spec | reflexivity].
Qed.

Lemma residual_of_factor (X Y cols rows : Z) (crop : bool) (k : Z) :
  Int.in_range X -> Int.in_range Y -> 1 <= k ->
  (Geometry.factor X Y cols rows crop == inject_Z k)%Q ->
  Geometry.shrink X Y cols rows crop = k /\
  (Geometry.residual X Y cols rows crop == 1)%Q.
Proof.
  intros HX HY Hk Hf.
  assert (Hs : Geometry.shrink X Y cols rows crop = k).
  { rewrite (shrink_is_floor X Y cols rows crop HX HY).
    rewrite (Qfloor_comp _ _ Hf). apply Qfloor_Z. }
  split; [exact Hs | ].
  unfold Geometry.residual, Double.div, Double.of_int. rewrite Hs.
  transitivity (round (inject_Z 1)).
  - apply round_proper. rewrite Hf. change (inject_Z 1) with 1%Q. field.
    change 0%Q with (inject_Z 0). rewrite inject_Z_injective. lia.
  - apply round_int. unfold Int.in_range, Int.INT_MIN, Int.INT_MAX. lia.
Qed.

(** X1.  The residual scale handed to the affine resample is never below one
    half: the integral shrink is the floor of a factor that is at least 1, so
    it is more than half of the factor (lines 80-82). *)
Theorem residual_at_least_half (X Y cols rows : Z) (crop : bool) :
  Int.in_range X -> Int.in_range Y ->
  (1 # 2 <= Geometry.residual X Y cols rows crop)%Q.
Proof.
  intros X_int Y_int.
  pose proof (floor_factor_bounds X Y cols rows crop X_int Y_int) as [Hlo _].
  pose proof (factor_ge_1 X Y cols rows crop) as Hf1.
  pose proof (Qlt_floor (Geometry.factor X Y cols rows crop)) as Hlt.
  unfold Geometry.residual, Double.div, Double.of_int.
  rewrite (shrink_is_floor X Y cols rows crop X_int Y_int).
  set (f := Geometry.factor X Y cols rows crop) in *.
  rewrite <- (round_binary64 _ binary64_half).
  apply round_monotone.
  apply Qle_shift_div_l; [lra | ].
  rewrite inject_Z_plus in Hlt.
  assert (H1 : (1 <= inject_Z (Qfloor f))%Q)
    by (change 1%Q with (inject_Z 1); now rewrite <- Zle_Qle).
  change (inject_Z 1) with 1%Q in Hlt. lra.
Qed.

(** X2.  An image is never enlarged by the plan: when the source fits the
    target (on one axis under Crop, on both under an embedding policy), the
    factor, the shrink and the residual are all exactly 1, so both resampling
    calls are asked for the identity (lines 77-82). *)
Theorem native_resolution_when_source_fits (X Y cols rows : Z) (crop : bool) :
  Int.in_range X -> Int.in_range Y ->
  (if crop then X <= Z.max cols 1 \/ Y <= Z.max rows 1
   else X <= Z.max cols 1 /\ Y <= Z.max rows 1) ->
  (Geometry.factor X Y cols rows crop == 1)%Q /\
  Geometry.shrink X Y cols rows crop = 1 /\
  (Geometry.residual X Y cols rows crop == 1)%Q.
Proof.
  intros HX HY Hfit.
  assert (Hx : X <= Z.max cols 1 -> (Geometry.xfactor X cols <= 1)%Q).
  { intros H. unfold Geometry.xfactor. rewrite int_max_spec.
    apply div_quotient_le_1; [lia | exact H]. }
  assert (Hy : Y <= Z.max rows 1 -> (Geometry.yfactor Y rows <= 1)%Q).
  { intros H. unfold Geometry.yfactor. rewrite int_max_spec.
    apply div_quotient_le_1; [lia | exact H]. }
  assert (Hf : (Geometry.factor X Y cols rows crop == 1)%Q).
  { rewrite factor_spec. apply Q.max_r. destruct crop.
    - apply Q.min_le_iff. destruct Hfit as [H | H]; [left; now apply Hx | right; now apply Hy].
    - destruct Hfit as [H1 H2]. apply Q.max_lub; [now apply Hx | now apply Hy]. }
  split; [exact Hf | ].
  apply (residual_of_factor X Y cols rows crop 1 HX HY); [lia | exact Hf].
Qed.

(** X3.  When the source is an integral multiple k of the target on both
    axes, the whole reduction is done by the integral shrink: factor = k,
    shrink = k and the residual is exactly 1, under either policy and with
    no rounding error (lines 77-82). *)
Theorem integral_ratio_is_all_shrink (X Y cols rows k : Z) (crop : bool) :
  Int.in_range X -> Int.in_range Y ->
  1 <= cols -> 1 <= rows -> 1 <= k -> X = k * cols -> Y = k * rows ->
  (Geometry.factor X Y cols rows crop == inject_Z k)%Q /\
  Geometry.shrink X Y cols rows crop = k /\
  (Geometry.residual X Y cols rows crop == 1)%Q.
Proof.
  intros HX HY Hc Hr Hk EX EY.
  assert (Hkr : Int.in_range k)
    by (unfold Int.in_range, Int.INT_MIN, Int.INT_MAX in *; nia).
  assert (Hq : forall n d, 1 <= d -> n = k * d ->
            (Double.div (Double.of_int n) (Double.of_int (Int.max d 1)) == inject_Z k)%Q).
  { intros n d Hd ->. unfold Double.div, Double.of_int.
    rewrite int_max_spec, Z.max_l by lia.
    transitivity (round (inject_Z k)); [ | apply (round_int k Hkr)].
    apply round_proper. rewrite inject_Z_mult. field.
    change 0%Q with (inject_Z 0). rewrite inject_Z_injective. lia. }
  assert (Hf : (Geometry.factor X Y cols rows crop == inject_Z k)%Q).
  { rewrite factor_spec. unfold Geometry.xfactor, Geometry.yfactor.
    transitivity (Qmax (inject_Z k) 1).
    - apply Q.max_compat; [ | reflexivity]. destruct crop.
      + transitivity (Qmin (inject_Z k) (inject_Z k)); [ | apply Q.min_id].
        apply Q.min_compat; [apply (Hq X cols Hc EX) | apply (Hq Y rows Hr EY)].
      + transitivity (Qmax (inject_Z k) (inject_Z k)); [ | apply Q.max_id].
        apply Q.max_compat; [apply (Hq X cols Hc EX) | apply (Hq Y rows Hr EY)].
    - apply Q.max_l. change 1%Q with (inject_Z 1). rewrite <- Zle_Qle. lia. }
  split; [exact Hf | ].
  apply (residual_of_factor X Y cols rows crop k HX HY Hk Hf).
Qed.

(** X4.  For the same image and target, Crop never reduces more than an
    embedding policy: its factor and its integral shrink are at most those
    of the embedding (line 79: min against max of the same two ratios). *)
Theorem crop_shrinks_no_more_than_embed (X Y cols rows : Z) :
  Int.in_range X -> Int.in_range Y ->
  (Geometry.factor X Y cols rows true <= Geometry.factor X Y cols rows false)%Q /\
  Geometry.shrink X Y cols rows true <= Geometry.shrink X Y cols rows false.
Proof.
  intros HX HY.
  assert (Hf : (Geometry.factor X Y cols rows true <= Geometry.factor X Y cols rows false)%Q).
  { rewrite !factor_spec. apply Q.max_le_compat; [ | apply Qle_refl].
    eapply Qle_trans; [apply Q.le_min_l | apply Q.le_max_l]. }
  split; [exact Hf | ].
  rewrite !shrink_is_floor by assumption. now apply Qfloor_resp_le.
Qed.

(** X5.  The plan is monotone in the target: for an image of non-negative
    size, a target that is at least as large on both axes gets a factor and
    an integral shrink that are no larger (lines 77-81). *)
Theorem larger_target_shrinks_no_more (X Y cols rows cols' rows' : Z) (crop : bool) :
  0 <= X <= Int.INT_MAX -> 0 <= Y <= Int.INT_MAX ->
  cols <= cols' -> rows <= rows' ->
  (Geometry.factor X Y cols' rows' crop <= Geometry.factor X Y cols rows crop)%Q /\
  Geometry.shrink X Y cols' rows' crop <= Geometry.shrink X Y cols rows crop.
Proof.
  intros HX HY Hc Hr.
  assert (HXr : Int.in_range X) by (unfold Int.in_range, Int.INT_MIN, Int.INT_MAX in *; lia).
  assert (HYr : Int.in_range Y) by (unfold Int.in_range, Int.INT_MIN, Int.INT_MAX in *; lia).
  assert (Hq : forall n d d', 0 <= n -> d <= d' ->
            (Double.div (Double.of_int n) (Double.of_int (Int.max d' 1))
             <= Double.div (Double.of_int n) (Double.of_int (Int.max d 1)))%Q).
  { intros n d d' Hn Hd. unfold Double.div, Double.of_int. rewrite !int_max_spec.
    apply round_monotone.
    assert (H1 : (0 < inject_Z (Z.max d 1))%Q)
      by (change 0%Q with (inject_Z 0); rewrite <- Zlt_Qlt; lia).
    assert (H1' : (0 < inject_Z (Z.max d' 1))%Q)
      by (change 0%Q with (inject_Z 0); rewrite <- Zlt_Qlt; lia).
    apply Qle_shift_div_r; [exact H1' | ].
    assert (Ha : (0 <= inject_Z n / inject_Z (Z.max d 1))%Q).
    { apply Qle_shift_div_l; [exact H1 | ]. rewrite Qmult_0_l.
      change 0%Q with (inject_Z 0). now rewrite <- Zle_Qle. }
    assert (Hd' : (inject_Z (Z.max d 1) <= inject_Z (Z.max d' 1))%Q)
      by (rewrite <- Zle_Qle; lia).
    pose proof (Qmult_le_compat_r _ _ _ Hd' Ha) as Hm.
    setoid_replace (inject_Z n)
      with (inject_Z (Z.max d 1) * (inject_Z n / inject_Z (Z.max d 1)))%Q at 1
      by (field; lra).
    rewrite (Qmult_comm (inject_Z n / inject_Z (Z.max d 1))). exact Hm. }
  assert (Hf : (Geometry.factor X Y cols' rows' crop <= Geometry.factor X Y cols rows crop)%Q).
  { rewrite !factor_spec. apply Q.max_le_compat; [ | apply Qle_refl].
    unfold Geometry.xfactor, Geometry.yfactor.
    destruct crop; [apply Q.min_le_compat | apply Q.max_le_compat];
      apply Hq; lia. }
  split; [exact Hf | ].
  rewrite !shrink_is_floor by assumption. now apply Qfloor_resp_le.
Qed.

End MoreDoubleFacts.

Lemma residual_at_least_half_witness :
  (1 # 2 <= @Geometry.residual binary64_rounding 38 38 10 10 true)%Q.
Proof.
  apply (@residual_at_least_half binary64_rounding 38 38 10 10 true);
    apply in_range_decide; reflexivity.
Defined.

Lemma native_resolution_when_source_fits_witness :
  (@Geometry.factor binary64_rounding 50 200 100 100 true == 1)%Q /\
  @Geometry.shrink binary64_rounding 50 200 100 100 true = 1 /\
  (@Geometry.residual binary64_rounding 50 200 100 100 true == 1)%Q.
Proof.
  apply (@native_resolution_when_source_fits binary64_rounding 50 200 100 100 true).
  - apply in_range_decide; reflexivity.
  - apply in_range_decide; reflexivity.
  - left. lia.
Defined.

Lemma integral_ratio_is_all_shrink_witness :
  (@Geometry.factor binary64_rounding 300 600 100 200 false == inject_Z 3)%Q /\
  @Geometry.shrink binary64_rounding 300 600 100 200 false = 3 /\
  (@Geometry.residual binary64_rounding 300 600 100 200 false == 1)%Q.
Proof.
  apply (@integral_ratio_is_all_shrink binary64_rounding 300 600 100 200 3 false).
  - apply in_range_decide; reflexivity.
  - apply in_range_decide; reflexivity.
  - lia.
  - lia.
  - lia.
  - reflexivity.
  - reflexivity.
Defined.

Lemma crop_shrinks_no_more_than_embed_witness :
  @Geometry.shrink binary64_rounding 1000 600 100 100 true
  <= @Geometry.shrink binary64_rounding 1000 600 100 100 false.
Proof.
  apply (@crop_shrinks_no_more_than_embed binary64_rounding 1000 600 100 100);
    apply in_range_decide; reflexivity.
Defined.

Lemma larger_target_shrinks_no_more_witness :
  @Geometry.shrink binary64_rounding 1000 600 200 150 true
  <= @Geometry.shrink binary64_rounding 1000 600 100 100 true.
Proof.
  apply (@larger_target_shrinks_no_more binary64_rounding 1000 600 100 100 200 150 true);
    unfold Int.INT_MAX; lia.
Defined.

(** * Further properties of the crop and embed rectangles *)

Lemma int_range_wrap (z : Z) : - 2 ^ 31 <= z <= 2 ^ 31 - 1 -> Int.wrap z = z.
Proof. intros H. apply wrap_in_range. exact H. Qed.

(** The offset of the crop along one axis. *)
Lemma crop_offset (size target : Z) :
  1 <= size <= Int.INT_MAX -> 1 <= target ->
  Int.div (Int.add (Int.sub size (Int.min size target)) 1) 2
  = (size - Z.min size target + 1) / 2.
Proof.
  unfold Int.INT_MAX. intros Hs Ht. rewrite int_min_spec.
  unfold Int.div, Int.add, Int.sub.
  rewrite (int_range_wrap (size - Z.min size target)) by lia.
  rewrite (int_range_wrap (size - Z.min size target + 1)) by lia.
  rewrite Z.quot_div_nonneg by lia.
  apply int_range_wrap.
  assert (0 <= (size - Z.min size target + 1) / 2) by (apply Z.div_pos; lia).
  assert ((size - Z.min size target + 1) / 2 <= size - Z.min size target + 1)
    by (apply Z.div_le_upper_bound; lia).
  lia.
Qed.

(** X6.  The crop is centred: the margin cut on the left (top) and the one
    cut on the right (bottom) differ by at most one pixel, the odd pixel
    going to the left (top); the two margins add up to the excess of the
    image over the target; and an image no larger than the target on an axis
    is kept whole on that axis (lines 100-103). *)
Theorem crop_rect_centred_within_a_pixel (img_Xsize img_Ysize cols rows : Z) :
  1 <= img_Xsize <= Int.INT_MAX -> 1 <= img_Ysize <= Int.INT_MAX ->
  1 <= cols -> 1 <= rows ->
  let r := Geometry.crop_rect img_Xsize img_Ysize cols rows in
  let right := img_Xsize - (Geometry.left r + Geometry.width r) in
  let bottom := img_Ysize - (Geometry.top r + Geometry.height r) in
  0 <= Geometry.left r - right <= 1 /\
  0 <= Geometry.top r - bottom <= 1 /\
  (cols <= img_Xsize -> Geometry.left r + right = img_Xsize - cols) /\
  (rows <= img_Ysize -> Geometry.top r + bottom = img_Ysize - rows) /\
  (img_Xsize <= cols -> Geometry.left r = 0 /\ Geometry.width r = img_Xsize) /\
  (img_Ysize <= rows -> Geometry.top r = 0 /\ Geometry.height r = img_Ysize).
Proof.
  intros HX HY Hc Hr. cbv zeta. unfold Geometry.crop_rect.
  cbn [Geometry.left Geometry.top Geometry.width Geometry.height].
  rewrite (crop_offset img_Xsize cols HX Hc), (crop_offset img_Ysize rows HY Hr).
  rewrite !int_min_spec.
  pose proof (Z.div_mod (img_Xsize - Z.min img_Xsize cols + 1) 2 ltac:(lia)) as Dx.
  pose proof (Z.mod_pos_bound (img_Xsize - Z.min img_Xsize cols + 1) 2 ltac:(lia)) as Mx.
  pose proof (Z.div_mod (img_Ysize - Z.min img_Ysize rows + 1) 2 ltac:(lia)) as Dy.
  pose proof (Z.mod_pos_bound (img_Ysize - Z.min img_Ysize rows + 1) 2 ltac:(lia)) as My.
  repeat split; intros; lia.
Qed.

Lemma crop_rect_centred_within_a_pixel_witness :
  let r := Geometry.crop_rect 167 100 100 100 in
  0 <= Geometry.left r - (167 - (Geometry.left r + Geometry.width r)) <= 1 /\
  0 <= Geometry.top r - (100 - (Geometry.top r + Geometry.height r)) <= 1.
Proof.
  assert (H1 : 1 <= 167 <= Int.INT_MAX) by (unfold Int.INT_MAX; lia).
  assert (H2 : 1 <= 100 <= Int.INT_MAX) by (unfold Int.INT_MAX; lia).
  assert (H3 : 1 <= 100) by lia.
  destruct (crop_rect_centred_within_a_pixel 167 100 100 100 H1 H2 H3 H3)
    as (Hl & Ht & _).
  cbv zeta. split; assumption.
Defined.

(** The offset of the embedding along one axis: C++ division truncates
    towards zero. *)
Lemma embed_offset (size target : Z) :
  1 <= size <= Int.INT_MAX -> 1 <= target <= Int.INT_MAX ->
  Int.div (Int.sub target size) 2 = Z.quot (target - size) 2.
Proof.
  unfold Int.INT_MAX. intros Hs Ht. unfold Int.div, Int.sub.
  rewrite (int_range_wrap (target - size)) by lia.
  apply int_range_wrap.
  pose proof (Z.quot_rem' (target - size) 2) as Q.
  pose proof (Z.rem_bound_abs (target - size) 2 ltac:(lia)) as B.
  lia.
Qed.

(** X7.  The embedding is centred within a pixel: the canvas has the
    target's size.  Below, [right] (resp. [bottom]) is the canvas size minus
    the offset minus the image size: the border on that side when it is
    positive, minus the overhang when it is negative.  An image that fits
    on an axis is placed at a non-negative offset, and the border on the
    right (bottom) is the border on the left (top) or one pixel more.  An
    image larger than the target on an axis is placed at a non-positive
    offset, and its overhang past the right (bottom) edge is its overhang
    past the left (top) edge or one pixel more: the division of line 111
    truncates towards zero, so the odd pixel is on the right (bottom) in
    both cases.  An image one pixel too large is placed at offset 0, with no
    overhang on the left (top) (lines 111-113). *)
Theorem embed_rect_centred_within_a_pixel (img_Xsize img_Ysize cols rows : Z) :
  1 <= img_Xsize <= Int.INT_MAX -> 1 <= img_Ysize <= Int.INT_MAX ->
  1 <= cols <= Int.INT_MAX -> 1 <= rows <= Int.INT_MAX ->
  let r := Geometry.embed_rect img_Xsize img_Ysize cols rows in
  let right := cols - (Geometry.left r + img_Xsize) in
  let bottom := rows - (Geometry.top r + img_Ysize) in
  Geometry.width r = cols /\ Geometry.height r = rows /\
  (img_Xsize <= cols -> 0 <= Geometry.left r /\ 0 <= right - Geometry.left r <= 1) /\
  (img_Ysize <= rows -> 0 <= Geometry.top r /\ 0 <= bottom - Geometry.top r <= 1) /\
  (cols < img_Xsize -> Geometry.left r <= 0 /\ 0 <= Geometry.left r - right <= 1) /\
  (rows < img_Ysize -> Geometry.top r <= 0 /\ 0 <= Geometry.top r - bottom <= 1) /\
  (img_Xsize = cols + 1 -> Geometry.left r = 0) /\
  (img_Ysize = rows + 1 -> Geometry.top r = 0).
Proof.
  intros HX HY Hc Hr. cbv zeta. unfold Geometry.embed_rect.
  cbn [Geometry.left Geometry.top Geometry.width Geometry.height].
  rewrite (embed_offset img_Xsize cols HX Hc), (embed_offset img_Ysize rows HY Hr).
  pose proof (Z.quot_rem' (cols - img_Xsize) 2) as Qx.
  pose proof (Z.quot_rem' (rows - img_Ysize) 2) as Qy.
  assert (Rx : (0 <= cols - img_Xsize -> 0 <= Z.rem (cols - img_Xsize) 2 < 2) /\
               (cols - img_Xsize <= 0 -> -2 < Z.rem (cols - img_Xsize) 2 <= 0)).
  { split; intros H; [apply Z.rem_bound_pos; lia | ].
    pose proof (Z.rem_nonpos (cols - img_Xsize) 2 ltac:(lia) H).
    pose proof (Z.rem_bound_abs (cols - img_Xsize) 2 ltac:(lia)). lia. }
  assert (Ry : (0 <= rows - img_Ysize -> 0 <= Z.rem (rows - img_Ysize) 2 < 2) /\
               (rows - img_Ysize <= 0 -> -2 < Z.rem (rows - img_Ysize) 2 <= 0)).
  { split; intros H; [apply Z.rem_bound_pos; lia | ].
    pose proof (Z.rem_nonpos (rows - img_Ysize) 2 ltac:(lia) H).
    pose proof (Z.rem_bound_abs (rows - img_Ysize) 2 ltac:(lia)). lia. }
  repeat split; intros; lia.
Qed.

Lemma embed_rect_centred_within_a_pixel_witness :
  let r := Geometry.embed_rect 95 120 100 100 in
  Geometry.width r = 100 /\ Geometry.height r = 100 /\
  0 <= Geometry.left r /\ Geometry.top r <= 0.
Proof.
  assert (H1 : 1 <= 95 <= Int.INT_MAX) by (unfold Int.INT_MAX; lia).
  assert (H2 : 1 <= 120 <= Int.INT_MAX) by (unfold Int.INT_MAX; lia).
  assert (H3 : 1 <= 100 <= Int.INT_MAX) by (unfold Int.INT_MAX; lia).
  destruct (embed_rect_centred_within_a_pixel 95 120 100 100 H1 H2 H3 H3)
    as (Hw & Hh & Hl & _ & _ & Ht & _).
  cbv zeta. split; [exact Hw | split; [exact Hh | split]].
  - apply Hl. lia.
  - apply Ht. lia.
Defined.

(** * Further properties of [EndsWith] *)

Lemma append_empty_r (a : string) : a ++ "" = a.
Proof. induction a as [ | x a IH]; simpl; [reflexivity | now rewrite IH]. Qed.

Lemma length_zero (a : string) : String.length a = 0%nat -> a = "".
Proof. destruct a; simpl; [reflexivity | discriminate]. Qed.

(** X8.  The edge cases of [EndsWith] (lines 44-46): the empty string ends
    every string, every string ends itself, the empty string is ended by
    the empty string only, a string is never ended by a longer one (the
    length test, which also keeps [compare] from being called with a
    position past the end), and between strings of equal length [EndsWith]
    is equality. *)
Theorem EndsWith_edge_cases (str end_ : string) :
  EndsWith str "" = true /\
  EndsWith str str = true /\
  (EndsWith "" end_ = true <-> end_ = "") /\
  ((String.length str < String.length end_)%nat -> EndsWith str end_ = false) /\
  (String.length str = String.length end_ ->
     (EndsWith str end_ = true <-> str = end_)).
Proof.
  split; [ | split; [ | split; [ | split]]].
  - apply EndsWith_spec. exists str. symmetry. apply append_empty_r.
  - apply EndsWith_spec. now exists "".
  - rewrite EndsWith_spec. split.
    + intros [p H]. apply (f_equal String.length) in H. rewrite length_append in H.
      simpl in H. apply length_zero. lia.
    + intros ->. now exists "".
  - intros H. destruct (EndsWith str end_) eqn:E; [ | reflexivity].
    apply EndsWith_spec in E. destruct E as [p E].
    apply (f_equal String.length) in E. rewrite length_append in E. lia.
  - intros Hlen. rewrite EndsWith_spec. split.
    + intros [p E]. pose proof (f_equal String.length E) as L.
      rewrite length_append in L.
      assert (p = "") by (apply length_zero; lia). now subst p.
    + intros ->. now exists "".
Qed.

Lemma EndsWith_edge_cases_witness :
  EndsWith "jpg" ".jpg" = false /\ (EndsWith ".png" ".jpg" = true <-> ".png" = ".jpg").
Proof.
  destruct (EndsWith_edge_cases "jpg" ".jpg") as (_ & _ & _ & Hshort & _).
  destruct (EndsWith_edge_cases ".png" ".jpg") as (_ & _ & _ & _ & Hsame).
  split; [apply Hshort; simpl; lia | apply Hsame; reflexivity].
Defined.

(** * The destructor of [ImageFreer] *)

Section ImageFreerFacts.
Context {V : Vips}.

Lemma held_skipn (v : ImageFreer.t) (n : nat) :
  (n < List.length v)%nat ->
  ImageFreer.held (skipn n v) =
  match nth n v None with
  | Some img => img :: ImageFreer.held (skipn (S n) v)
  | None => ImageFreer.held (skipn (S n) v)
  end.
Proof.
  revert n. induction v as [ | x v IH]; intros n Hn; simpl in Hn; [lia | ].
  destruct n as [ | n].
  - simpl. destruct x; reflexivity.
  - simpl. apply IH. lia.
Qed.

Lemma unref_from_ends (v : ImageFreer.t) (k : nat) (i : nat) (fuel : nat) :
  Z.of_nat (List.length v) < 2 ^ 16 ->
  (i + k = List.length v)%nat -> (k < fuel)%nat ->
  ImageFreer.unref_from fuel v (Z.of_nat i) = Some (ImageFreer.held (skipn i v)).
Proof.
  intros Hlen. revert i fuel. induction k as [ | k IH]; intros i fuel Hi Hf.
  - destruct fuel as [ | fuel]; [lia | ]. simpl.
    destruct (Z.ltb_spec (Z.of_nat i) (Z.of_nat (List.length v))) as [L | L]; [lia | ].
    rewrite skipn_all2 by lia. reflexivity.
  - destruct fuel as [ | fuel]; [lia | ]. simpl.
    destruct (Z.ltb_spec (Z.of_nat i) (Z.of_nat (List.length v))) as [L | L]; [ | lia].
    assert (E : ImageFreer.uint16_succ (Z.of_nat i) = Z.of_nat (S i)).
    { unfold ImageFreer.uint16_succ. rewrite Z.mod_small; lia. }
    rewrite E, (IH (S i) fuel) by lia.
    rewrite Nat2Z.id. rewrite (held_skipn v i) by lia.
    destruct (nth i v None); reflexivity.
Qed.

Lemma unref_from_wraps (v : ImageFreer.t) (fuel : nat) (i : Z) :
  2 ^ 16 <= Z.of_nat (List.length v) -> 0 <= i < 2 ^ 16 ->
  ImageFreer.unref_from fuel v i = None.
Proof.
  intros Hlen. revert i. induction fuel as [ | fuel IH]; intros i Hi; [reflexivity | ].
  simpl. destruct (Z.ltb_spec i (Z.of_nat (List.length v))) as [L | L]; [ | lia].
  rewrite IH; [reflexivity | ].
  unfold ImageFreer.uint16_succ. apply Z.mod_pos_bound. lia.
Qed.

(** X9.  With fewer than 2^16 pointers added, the destructor ends (within
    one iteration per pointer, plus the closing test) and hands to
    [g_object_unref] each non-null pointer exactly once, in the order of the
    [add] calls, skipping the null ones, and leaves the vector empty
    (lines 16-23). *)
Theorem ImageFreer_releases_each_image_once (v : ImageFreer.t) (fuel : nat) :
  Z.of_nat (List.length v) < 2 ^ 16 -> (List.length v < fuel)%nat ->
  ImageFreer.destroy fuel v = Some (ImageFreer.held v, []).
Proof.
  intros Hlen Hf. unfold ImageFreer.destroy.
  change 0 with (Z.of_nat 0).
  rewrite (unref_from_ends v (List.length v) 0 fuel Hlen) by lia.
  reflexivity.
Qed.

(** X10.  With 2^16 pointers or more, the destructor never ends: the
    [uint16_t] index wraps to 0 before it can reach [v_.size()], so the loop
    test of line 17 stays true whatever the number of iterations. *)
Theorem ImageFreer_never_ends_beyond_uint16 (v : ImageFreer.t) (fuel : nat) :
  2 ^ 16 <= Z.of_nat (List.length v) -> ImageFreer.destroy fuel v = None.
Proof.
  intros Hlen. unfold ImageFreer.destroy.
  rewrite (unref_from_wraps v fuel 0 Hlen); [reflexivity | lia].
Qed.

End ImageFreerFacts.

Lemma ImageFreer_releases_each_image_once_witness :
  Z.of_nat (List.length example_freer) < 2 ^ 16 /\
  (List.length example_freer < 5)%nat /\
  @ImageFreer.destroy sizes_only 5 example_freer = Some ([(10, 20); (3, 4)], []).
Proof.
  assert (H1 : Z.of_nat (List.length example_freer) < 2 ^ 16) by (simpl; lia).
  assert (H2 : (List.length example_freer < 5)%nat) by (simpl; lia).
  split; [exact H1 | split; [exact H2 | ]].
  apply (@ImageFreer_releases_each_image_once sizes_only _ 5 H1 H2).
Defined.

Lemma ImageFreer_never_ends_beyond_uint16_witness :
  let v := repeat (@None (@VipsImage sizes_only)) (Z.to_nat (2 ^ 16)) in
  2 ^ 16 <= Z.of_nat (List.length v) /\
  @ImageFreer.destroy sizes_only 100 v = None.
Proof.
  cbv zeta.
  assert (H : 2 ^ 16 <= Z.of_nat (List.length
                (repeat (@None (@VipsImage sizes_only)) (Z.to_nat (2 ^ 16)))))
    by (rewrite repeat_length, Z2Nat.id; lia).
  split; [exact H | ].
  apply (@ImageFreer_never_ends_beyond_uint16 sizes_only _ 100 H).
Defined.

(** * Further properties of a run of the worker *)




Section Outcome.
Context {R : Rounding} {V : Vips}.

Lemma ResizeAsync_keeps_all (baton : ResizeBaton) :
  always (ResizeAsync baton) (fun _ done =>
    src done = src baton /\ dst done = dst baton /\
    cols done = cols baton /\ rows done = rows baton /\
    crop done = crop baton /\ embed done = embed baton /\
    callback done = callback baton /\
    (exists text : string, err done = err baton ++ text) /\
    (~ buffer_sentinel (dst baton) ->
       buffer_out done = buffer_out baton /\
       buffer_out_len done = buffer_out_len baton)).
Proof.
  prog_walk; cbn; repeat (split; [first [reflexivity | assumption] | ]);
    (split; [first [eexists; reflexivity | exists ""; symmetry; apply append_empty_r] | ]).
  all: intros Hs; try (split; reflexivity); exfalso; apply Hs;
    apply buffer_sentinel_spec;
    repeat match goal with H : String.eqb _ _ = _ |- _ => rewrite H end;
    reflexivity.
Qed.

End Outcome.

Ltac zero_rc :=
  repeat match goal with
         | F : failed ?rc = false |- _ =>
             unfold failed in F; apply negb_false_iff, Z.eqb_eq in F; subst rc
         end.

Section Dataflow.
Context {R : Rounding} {V : Vips}.

Lemma completed_run_stages (baton : ResizeBaton) :
  always (ResizeAsync baton) (fun t _ =>
    supported_suffix (src baton) -> no_failure t ->
    exists (in0 : option VipsImage) (img t0 t1 t2 t3 : VipsImage)
           (load canvas : Event) (rest : list Event),
      t = Build_Event (vips_image_new_mode (src baton) "p") in0
          :: load
          :: Build_Event (im_open_local_array img 4 "temp" "p") 0
          :: Build_Event
               (im_shrink img
                  (Double.of_int (Geometry.shrink (Xsize img) (Ysize img)
                                    (cols baton) (rows baton) (crop baton)))
                  (Double.of_int (Geometry.shrink (Xsize img) (Ysize img)
                                    (cols baton) (rows baton) (crop baton))))
               (0, t0)
          :: Build_Event
               (im_affinei_all t0 vips_interpolate_bilinear_static
                  (Geometry.residual (Xsize img) (Ysize img)
                     (cols baton) (rows baton) (crop baton)) 0 0
                  (Geometry.residual (Xsize img) (Ysize img)
                     (cols baton) (rows baton) (crop baton)) 0 0)
               (0, t1)
          :: canvas
          :: Build_Event (im_conv t2 sharpen) (0, t3)
          :: rest /\
      (load = Build_Event (vips_jpegload (src baton) in0) (Some img) \/
       load = Build_Event (vips_pngload (src baton) in0) (Some img)) /\
      (crop baton = true /\
       canvas =
         (let a := Geometry.crop_rect (Xsize t1) (Ysize t1) (cols baton) (rows baton) in
          Build_Event (im_extract_area t1 (Geometry.left a) (Geometry.top a)
                                       (Geometry.width a) (Geometry.height a)) (0, t2))
       \/
       crop baton = false /\
       canvas =
         (let a := Geometry.embed_rect (Xsize t1) (Ysize t1) (cols baton) (rows baton) in
          Build_Event (im_embed t1 (embed baton) (Geometry.left a) (Geometry.top a)
                                (Geometry.width a) (Geometry.height a)) (0, t2))) /\
      (rest = [] \/
       exists (c : VipsCall) (r : reply c), rest = [Build_Event c r] /\ saves t3 c)).
Proof.
  prog_walk; cbn; intros Hsrc Hnf; observe Hnf.
  all: try (exfalso; intuition congruence).
  all: try (exfalso; rewrite supported_suffix_spec in Hsrc; simpl in Hsrc;
            repeat match goal with H : _ = false |- _ => rewrite H in Hsrc end;
            discriminate).
  all: zero_rc.
  all: do 9 eexists; split; [reflexivity | ].
  all: split; [first [left; reflexivity | right; reflexivity] | ].
  all: split; [first [left; split; [first [assumption | reflexivity] | reflexivity]
                     | right; split; [first [assumption | reflexivity] | reflexivity]] | ].
  all: first
    [ left; reflexivity
    | lazymatch goal with
      | |- _ \/ exists c r, [Build_Event ?c0 ?r0] = _ /\ _ =>
          right; exists c0, r0; split; [reflexivity | exact eq_refl]
      end ].
Qed.

End Dataflow.

Section Codec.
Context {R : Rounding} {V : Vips}.

Lemma saves_follow_destination (baton : ResizeBaton) :
  always (ResizeAsync baton) (fun t _ =>
    Forall (fun e => encodes_as (dst baton) (ev_call e)) t /\
    (List.length (filter is_save t) <= 1)%nat).
Proof.
  prog_walk; cbn [filter is_save ev_call List.length]; (split; [ | lia]).
  all: repeat (apply Forall_cons; [cbn [encodes_as ev_call]; try exact I | ]);
       try apply Forall_nil.
  all: repeat match goal with
         | H : String.eqb _ _ = true |- _ => apply String.eqb_eq in H
         | H : String.eqb _ _ = false |- _ => apply String.eqb_neq in H
         | H : _ || _ = true |- _ => apply orb_true_iff in H
         end.
  all: try (split; [assumption | reflexivity]).
  all: split; [reflexivity | split; [unfold buffer_sentinel; tauto | ]].
  all: first [left; split; [assumption | reflexivity]
             | right; split; [assumption | reflexivity]].
Qed.

Lemma calls_follow_policy (baton : ResizeBaton) :
  always (ResizeAsync baton) (fun t _ =>
    Forall (fun e => follows_policy (policy_of baton) (cols baton) (rows baton) (ev_call e)) t).
Proof.
  unfold policy_of.
  prog_walk; cbn.
  all: repeat (apply Forall_cons; [cbn [follows_policy ev_call policy_crops]; try exact I | ]);
       try apply Forall_nil.
  all: try (split; reflexivity).
  all: try reflexivity.
  all: repeat split; reflexivity.
Qed.

End Codec.

Ltac all_but_last l :=
  lazymatch l with
  | [?e] => let T := type of e in constr:(@nil T)
  | ?x :: ?r => let p := all_but_last r in constr:(x :: p)
  end.

Section Delivery.
Context {R : Rounding} {V : Vips}.

Lemma decoder_by_suffix (baton : ResizeBaton) (p ext : string) :
  In ext [".jpg"; ".jpeg"; ".png"] -> src baton = p ++ ext ->
  always (ResizeAsync baton) (fun t _ =>
    exists (in0 in1 : option VipsImage) (rest : list Event),
      (ext <> ".png" /\
       t = Build_Event (vips_image_new_mode (src baton) "p") in0
           :: Build_Event (vips_jpegload (src baton) in0) in1 :: rest) \/
      (ext = ".png" /\
       t = Build_Event (vips_image_new_mode (src baton) "p") in0
           :: Build_Event (vips_pngload (src baton) in0) in1 :: rest)).
Proof.
  intros Hext Hsrc.
  assert (Hc : (ext <> ".png" /\
                EndsWith (src baton) ".jpg" || EndsWith (src baton) ".jpeg" = true) \/
               (ext = ".png" /\
                EndsWith (src baton) ".jpg" || EndsWith (src baton) ".jpeg" = false /\
                EndsWith (src baton) ".png" = true)).
  { rewrite Hsrc. destruct Hext as [<- | [<- | [<- | []]]].
    - left. split; [discriminate | ].
      apply orb_true_iff. left. apply EndsWith_spec. now exists p.
    - left. split; [discriminate | ].
      apply orb_true_iff. right. apply EndsWith_spec. now exists p.
    - right. split; [reflexivity | split].
      + apply orb_false_iff. split; apply EndsWith_other_suffix; reflexivity.
      + apply EndsWith_spec. now exists p. }
  unfold ResizeAsync. cbn [always bind call]. intros in0.
  destruct Hc as [[Hne ->] | [-> [-> ->]]]; cbn [always bind call]; intros in1;
    (eapply always_weaken; [apply always_trivial | ]); intros t a _;
    exists in0, in1, t; [left | right]; split; (assumption || reflexivity).
Qed.

Lemma buffer_run (baton : ResizeBaton) :
  always (ResizeAsync baton) (fun t done =>
    buffer_sentinel (dst baton) -> supported_suffix (src baton) -> no_failure t ->
    exists (pre : list Event) (img : VipsImage) (buf : list byte) (len : N),
      done = set_buffer_out baton buf len /\
      (dst baton = "__jpeg" /\
       t = (pre ++ [Build_Event (vips_jpegsave_buffer img (buffer_out baton)
                                   (buffer_out_len baton) jpeg_options)
                                (0, (buf, len))])%list
       \/
       dst baton = "__png" /\
       t = (pre ++ [Build_Event (vips_pngsave_buffer img (buffer_out baton)
                                   (buffer_out_len baton) png_options)
                                (0, (buf, len))])%list)).
Proof.
  prog_walk; cbn; intros Hd Hsrc Hnf; observe Hnf.
  all: try (exfalso; intuition congruence).
  all: try (exfalso; rewrite supported_suffix_spec in Hsrc; simpl in Hsrc;
            repeat match goal with H : _ = false |- _ => rewrite H in Hsrc end;
            discriminate).
  all: try (exfalso; rewrite buffer_sentinel_spec in Hd; simpl in Hd;
            repeat match goal with H : String.eqb _ _ = false |- _ => rewrite H in Hd end;
            discriminate).
  all: zero_rc.
  all: repeat match goal with
         | H : String.eqb _ _ = true |- _ => apply String.eqb_eq in H
         end.
  all: lazymatch goal with
       | |- exists pre img buf len, _ /\ (_ /\ ?t = _ \/ _) =>
           let p := all_but_last t in
           exists p; do 3 eexists; split; [reflexivity | ];
           first [left; split; [assumption | reflexivity]
                 | right; split; [assumption | reflexivity]]
       end.
Qed.

End Delivery.

Section MoreTheorems.
Context {R : Rounding} {V : Vips} {W : Type}.

(** X11.  The worker does not touch the request: whatever libvips replies,
    after [ResizeAsync] the source, destination, target size, canvas policy
    and callback of the baton are those it was given; the error text is only
    ever appended to; and unless the destination is "__jpeg" or "__png" the
    output buffer and its length are left as they were (lines 48-163). *)
Theorem worker_preserves_request (lib : Library W) (w : W) (baton : ResizeBaton) :
  let done := fst (fst (run lib (ResizeAsync baton) w)) in
  src done = src baton /\ dst done = dst baton /\
  cols done = cols baton /\ rows done = rows baton /\
  crop done = crop baton /\ embed done = embed baton /\
  callback done = callback baton /\
  (exists text : string, err done = err baton ++ text) /\
  (~ buffer_sentinel (dst baton) ->
     buffer_out done = buffer_out baton /\
     buffer_out_len done = buffer_out_len baton).
Proof.
  destruct (run lib (ResizeAsync baton) w) as [[done w1] t] eqn:E. cbn [fst].
  exact (run_always lib _ _ w (ResizeAsync_keeps_all baton) _ _ _ E).
Qed.


(** X13.  The stages of a run without failure, and how the images flow
    through them.  The source is the path as line 191 reads it: the bytes of
    the argument up to its first NUL byte.  When it has a supported suffix,
    the libvips calls that create, load, transform or save an image are, in
    this order and with no other: the creation of the input image, the load,
    the local array of 4 images, the shrink of the loaded image by the
    planned integral shrink on both axes, the affine resample of the
    shrink's result by the planned residual on both axes with no shear and
    no offset, the extraction (under Crop) or the embedding (otherwise) of
    the resample's result by the rectangle computed from its size, the
    convolution of that result, and then at most one call, which saves the
    convolved image; and the error text is not read.  The resample is given
    the value of [vips_interpolate_bilinear_static()] and the convolution
    the mask made by [im_create_imaskv] with scale 24: these two calls take
    and return no image, and the model has their values, not the calls
    (lines 51-162). *)
Theorem completed_run_follows_the_stages
  (lib : Library W) (w : W) (fresh : Indeterminate) (args : Arguments) :
  let baton := Resize fresh args in
  let t := snd (resize lib w fresh args) in
  supported_suffix (from_char_ptr (arg_src args)) -> no_failure t ->
  exists (in0 : option VipsImage) (img t0 t1 t2 t3 : VipsImage)
         (load canvas : Event) (rest : list Event),
    t = Build_Event (vips_image_new_mode (from_char_ptr (arg_src args)) "p") in0
        :: load
        :: Build_Event (im_open_local_array img 4 "temp" "p") 0
        :: Build_Event
             (im_shrink img
                (Double.of_int (Geometry.shrink (Xsize img) (Ysize img)
                                  (arg_cols args) (arg_rows args) (crop baton)))
                (Double.of_int (Geometry.shrink (Xsize img) (Ysize img)
                                  (arg_cols args) (arg_rows args) (crop baton))))
             (0, t0)
        :: Build_Event
             (im_affinei_all t0 vips_interpolate_bilinear_static
                (Geometry.residual (Xsize img) (Ysize img)
                   (arg_cols args) (arg_rows args) (crop baton)) 0 0
                (Geometry.residual (Xsize img) (Ysize img)
                   (arg_cols args) (arg_rows args) (crop baton)) 0 0)
             (0, t1)
        :: canvas
        :: Build_Event (im_conv t2 sharpen) (0, t3)
        :: rest /\
    (load = Build_Event (vips_jpegload (from_char_ptr (arg_src args)) in0) (Some img) \/
     load = Build_Event (vips_pngload (from_char_ptr (arg_src args)) in0) (Some img)) /\
    (crop baton = true /\
     canvas =
       (let a := Geometry.crop_rect (Xsize t1) (Ysize t1) (arg_cols args) (arg_rows args) in
        Build_Event (im_extract_area t1 (Geometry.left a) (Geometry.top a)
                                     (Geometry.width a) (Geometry.height a)) (0, t2))
     \/
     crop baton = false /\
     canvas =
       (let a := Geometry.embed_rect (Xsize t1) (Ysize t1) (arg_cols args) (arg_rows args) in
        Build_Event (im_embed t1 (embed baton) (Geometry.left a) (Geometry.top a)
                              (Geometry.width a) (Geometry.height a)) (0, t2))) /\
    (rest = [] \/
     exists (c : VipsCall) (r : reply c), rest = [Build_Event c r] /\ saves t3 c).
Proof.
  cbv zeta. unfold resize, uv_queue_work.
  destruct (run lib (ResizeAsync (Resize fresh args)) w) as [[done w1] t] eqn:E.
  cbn [snd]. intros Hsrc Hnf.
  exact (run_always lib _ _ w (completed_run_stages (Resize fresh args)) _ _ _ E Hsrc Hnf).
Qed.

(** X14.  The decoder is chosen by the suffix of the source alone, the
    source being the path as line 191 reads it (the bytes of the argument up
    to its first NUL byte): a path ending in ".jpg" or ".jpeg" is handed to
    [vips_jpegload], one ending in ".png" to [vips_pngload], each as the
    second call of the run, on the image that the first call created
    (lines 51-55, 191). *)
Theorem decoder_follows_suffix
  (lib : Library W) (w : W) (fresh : Indeterminate) (args : Arguments) (p ext : string) :
  In ext [".jpg"; ".jpeg"; ".png"] -> from_char_ptr (arg_src args) = p ++ ext ->
  exists (in0 in1 : option VipsImage) (rest : list Event),
    (ext <> ".png" /\
     snd (resize lib w fresh args)
     = Build_Event (vips_image_new_mode (from_char_ptr (arg_src args)) "p") in0
       :: Build_Event (vips_jpegload (from_char_ptr (arg_src args)) in0) in1 :: rest) \/
    (ext = ".png" /\
     snd (resize lib w fresh args)
     = Build_Event (vips_image_new_mode (from_char_ptr (arg_src args)) "p") in0
       :: Build_Event (vips_pngload (from_char_ptr (arg_src args)) in0) in1 :: rest).
Proof.
  intros Hext Hsrc. unfold resize, uv_queue_work.
  destruct (run lib (ResizeAsync (Resize fresh args)) w) as [[done w1] t] eqn:E.
  cbn [snd].
  exact (run_always lib _ _ w
           (decoder_by_suffix (Resize fresh args) p ext Hext Hsrc) _ _ _ E).
Qed.

(** X15.  The encoder is chosen by the destination alone, the destination
    being the path as line 192 reads it (the bytes of the argument up to its
    first NUL byte).  In every run, a jpeg buffer save happens only for
    "__jpeg", a png buffer save only for "__png", a file save only to the
    destination itself, which then is no sentinel and ends in ".jpg" or
    ".jpeg" (jpeg options: strip, Q 80, optimised coding) or in ".png" (png
    options: strip, compression 6, no interlace); and a run saves at most
    once (lines 134-162, 192). *)
Theorem encoder_follows_destination
  (lib : Library W) (w : W) (fresh : Indeterminate) (args : Arguments) :
  let t := snd (resize lib w fresh args) in
  Forall (fun e => encodes_as (from_char_ptr (arg_dst args)) (ev_call e)) t /\
  (List.length (filter is_save t) <= 1)%nat.
Proof.
  cbv zeta. unfold resize, uv_queue_work.
  destruct (run lib (ResizeAsync (Resize fresh args)) w) as [[done w1] t] eqn:E.
  cbn [snd].
  exact (run_always lib _ _ w (saves_follow_destination (Resize fresh args)) _ _ _ E).
Qed.

(** X16.  A buffer request delivers what the encoder wrote.  Source and
    destination are the paths as lines 191-192 read them (the bytes of each
    argument up to its first NUL byte).  For a destination "__jpeg" or
    "__png", a source with a supported suffix and a run without failure, the
    last call is the buffer save of that format, handed the baton's buffer
    pointer as allocated and the length 0 of the constructor; and the
    callback is called once, with a null error and, when the encoder reports
    a positive length, the first [len] bytes of its buffer, or with no
    buffer when it reports length 0 (lines 41, 134-147, 172-181, 191-192). *)
Theorem buffer_is_delivered_as_encoded
  (lib : Library W) (w : W) (fresh : Indeterminate) (args : Arguments) :
  let t := snd (resize lib w fresh args) in
  let cbs := fst (fst (resize lib w fresh args)) in
  buffer_sentinel (from_char_ptr (arg_dst args)) ->
  supported_suffix (from_char_ptr (arg_src args)) -> no_failure t ->
  exists (pre : list Event) (img : VipsImage) (buf : list byte) (len : N),
    (from_char_ptr (arg_dst args) = "__jpeg" /\
     t = (pre ++ [Build_Event (vips_jpegsave_buffer img (ind_buffer_out fresh) 0 jpeg_options)
                              (0, (buf, len))])%list
     \/
     from_char_ptr (arg_dst args) = "__png" /\
     t = (pre ++ [Build_Event (vips_pngsave_buffer img (ind_buffer_out fresh) 0 png_options)
                              (0, (buf, len))])%list) /\
    cbs = [ {| called := arg_callback args;
               argv0 := None;
               argv1 := if (0 <? len)%N
                        then Some (firstn (N.to_nat len) buf)
                        else None |} ].
Proof.
  cbv zeta. unfold resize, uv_queue_work.
  destruct (run lib (ResizeAsync (Resize fresh args)) w) as [[done w1] t] eqn:E.
  cbn [fst snd]. intros Hd Hsrc Hnf.
  destruct (run_always lib _ _ w (buffer_run (Resize fresh args)) _ _ _ E Hd Hsrc Hnf)
    as (pre & img & buf & len & -> & Ht).
  exists pre, img, buf, len. split; [exact Ht | reflexivity].
Qed.

(** X17.  The canvas argument fixes what the run may ask of libvips: with
    "c" every shrink is the Crop plan's and no embedding is called; with "w"
    (resp. "b") every shrink is the embedding plan's, no extraction is
    called, and an embedding has background 4 (resp. 0) and the requested
    width and height as its canvas (lines 196-204, 79, 99-119). *)
Theorem canvas_selects_policy
  (lib : Library W) (w : W) (fresh : Indeterminate) (args : Arguments) :
  let t := snd (resize lib w fresh args) in
  let follows p := Forall (fun e => follows_policy p (arg_cols args) (arg_rows args) (ev_call e)) t in
  (arg_canvas args = "c" -> follows Crop) /\
  (arg_canvas args = "w" -> follows (Embed 4)) /\
  (arg_canvas args = "b" -> follows (Embed 0)).
Proof.
  cbv zeta. unfold resize, uv_queue_work.
  destruct (run lib (ResizeAsync (Resize fresh args)) w) as [[done w1] t] eqn:E.
  cbn [snd].
  pose proof (run_always lib _ _ w (calls_follow_policy (Resize fresh args)) _ _ _ E) as H.
  unfold policy_of in H. cbn [Resize crop embed cols rows new_ResizeBaton] in H.
  unfold canvas_crop, canvas_embed in H.
  repeat split; intros Hc; rewrite Hc in H; exact H.
Qed.

End MoreTheorems.

(** ** The properties of a run at concrete requests *)

Lemma worker_preserves_request_witness :
  let baton := Resize example_fresh (example_request "in.jpg" "out.png" "c" 100 100) in
  let done := fst (fst (@run sizes_only unit ResizeBaton
                          (stand_in (Some (1000, 600)))
                          (@ResizeAsync binary64_rounding sizes_only baton) tt)) in
  cols done = 100 /\ buffer_out_len done = 0%N.
Proof.
  cbv zeta.
  destruct (@worker_preserves_request binary64_rounding sizes_only unit
              (stand_in (Some (1000, 600))) tt
              (Resize example_fresh (example_request "in.jpg" "out.png" "c" 100 100)))
    as (_ & _ & Hc & _ & _ & _ & _ & _ & Hb).
  split; [exact Hc | ].
  apply Hb. apply not_buffer_sentinel. reflexivity.
Defined.


Lemma completed_run_follows_the_stages_witness :
  let t := snd (@resize binary64_rounding sizes_only unit (stand_in (Some (1000, 600))) tt
                  example_fresh (example_request "in.jpg" "out.png" "c" 100 100)) in
  exists (front rest : list (@Event sizes_only)) (t2 t3 : @VipsImage sizes_only),
    t = (front ++ @Build_Event sizes_only (@im_conv sizes_only t2 sharpen) (0, t3) :: rest)%list /\
    List.length front = 6%nat /\ (List.length rest <= 1)%nat.
Proof.
  cbv zeta.
  destruct (@completed_run_follows_the_stages binary64_rounding sizes_only unit
              (stand_in (Some (1000, 600))) tt
              example_fresh (example_request "in.jpg" "out.png" "c" 100 100))
    as (in0 & img & t0 & t1 & t2 & t3 & load & canvas & rest & Ht & _ & _ & Hrest).
  - apply is_supported_suffix. reflexivity.
  - apply no_failure_decide. vm_compute. reflexivity.
  - eexists [_; _; _; _; _; _], rest, t2, t3.
    split; [exact Ht | ]. split; [reflexivity | ].
    destruct Hrest as [-> | (c & r & -> & _)]; simpl; lia.
Defined.

Lemma decoder_follows_suffix_witness :
  exists (in0 in1 : option (@VipsImage sizes_only)) (rest : list (@Event sizes_only)),
    snd (@resize binary64_rounding sizes_only unit (stand_in (Some (1000, 600))) tt
           example_fresh (example_request "in.png" "out.jpg" "c" 100 100))
    = @Build_Event sizes_only (@vips_image_new_mode sizes_only "in.png" "p") in0
      :: @Build_Event sizes_only (@vips_pngload sizes_only "in.png" in0) in1 :: rest.
Proof.
  destruct (@decoder_follows_suffix binary64_rounding sizes_only unit
              (stand_in (Some (1000, 600))) tt
              example_fresh (example_request "in.png" "out.jpg" "c" 100 100)
              "in" ".png")
    as (in0 & in1 & rest & [[Hne _] | [_ Ht]]).
  - right. right. left. reflexivity.
  - reflexivity.
  - elim Hne. reflexivity.
  - exists in0, in1, rest. exact Ht.
Defined.

Lemma buffer_is_delivered_as_encoded_witness :
  exists (buf : list byte) (len : N),
    fst (fst (@resize binary64_rounding sizes_only unit (stand_in (Some (1000, 600))) tt
                example_fresh (example_request "in.png" "__jpeg" "w" 100 100)))
    = [ {| called := js_function 1;
           argv0 := None;
           argv1 := if (0 <? len)%N then Some (firstn (N.to_nat len) buf) else None |} ].
Proof.
  destruct (@buffer_is_delivered_as_encoded binary64_rounding sizes_only unit
              (stand_in (Some (1000, 600))) tt
              example_fresh (example_request "in.png" "__jpeg" "w" 100 100))
    as (pre & img & buf & len & _ & Hcb).
  - left. reflexivity.
  - apply is_supported_suffix. reflexivity.
  - apply no_failure_decide. vm_compute. reflexivity.
  - exists buf, len. exact Hcb.
Defined.

Lemma canvas_selects_policy_witness :
  Forall (fun e : @Event sizes_only =>
            @follows_policy binary64_rounding sizes_only (Embed 4) 100 100 (ev_call e))
    (snd (@resize binary64_rounding sizes_only unit (stand_in (Some (1000, 600))) tt
            example_fresh (example_request "in.jpg" "out.jpg" "w" 100 100))).
Proof.
  destruct (@canvas_selects_policy binary64_rounding sizes_only unit
              (stand_in (Some (1000, 600))) tt
              example_fresh (example_request "in.jpg" "out.jpg" "w" 100 100))
    as (_ & Hw & _).
  apply Hw. reflexivity.
Defined.

(** * Paths with a NUL byte *)

Lemma from_char_ptr_has_no_NUL (s : string) (a : ascii) :
  In a (list_ascii_of_string (from_char_ptr s)) -> a <> zero.
Proof.
  induction s as [ | c s IH]; simpl; [tauto | ].
  destruct (Ascii.eqb_spec c zero) as [E | E]; simpl; [tauto | ].
  intros [<- | H]; [exact E | now apply IH].
Qed.

Lemma from_char_ptr_cut (s : string) :
  from_char_ptr s = s \/
  exists rest : string, s = from_char_ptr s ++ String zero rest.
Proof.
  induction s as [ | c s IH]; simpl; [now left | ].
  destruct (Ascii.eqb_spec c zero) as [E | E].
  - right. exists s. simpl. now rewrite E.
  - destruct IH as [IH | [rest IH]].
    + left. now rewrite IH.
    + right. exists rest. simpl. now rewrite <- IH.
Qed.

(** X18.  [Resize] reads the source and the destination as C strings: the
    path in the baton has no NUL byte, and it is either the whole argument or
    the part of the argument before its first NUL byte (lines 191-192). *)
Theorem Resize_reads_paths_as_C_strings (fresh : Indeterminate) (args : Arguments) :
  let baton := Resize fresh args in
  (forall a : ascii, In a (list_ascii_of_string (src baton)) -> a <> zero) /\
  (src baton = arg_src args \/
   exists rest : string, arg_src args = src baton ++ String zero rest) /\
  (forall a : ascii, In a (list_ascii_of_string (dst baton)) -> a <> zero) /\
  (dst baton = arg_dst args \/
   exists rest : string, arg_dst args = dst baton ++ String zero rest).
Proof.
  cbv zeta. cbn [Resize src dst]. split; [ | split; [ | split]].
  - intros a. apply from_char_ptr_has_no_NUL.
  - apply from_char_ptr_cut.
  - intros a. apply from_char_ptr_has_no_NUL.
  - apply from_char_ptr_cut.
Qed.

Example source_cut_at_NUL :
  snd (@resize binary64_rounding sizes_only unit (stand_in None) tt
         example_fresh
         (example_request ("pic.jpg" ++ String zero ".gif") "out.png" "c" 10 10))
  = [ @Build_Event sizes_only (@vips_image_new_mode sizes_only "pic.jpg" "p") (Some (0, 0));
      @Build_Event sizes_only (@vips_jpegload sizes_only "pic.jpg" (Some (0, 0))) None;
      @Build_Event sizes_only (@vips_error_buffer sizes_only) "VipsJpeg: unable to open";
      @Build_Event sizes_only (@vips_error_clear sizes_only) tt ].
Proof. vm_compute. reflexivity. Qed.

Example unsupported_source_before_NUL :
  fst (fst (@resize binary64_rounding sizes_only unit (stand_in (Some (38, 38))) tt
              example_fresh
              (example_request ("a.gif" ++ String zero ".jpg") "__jpeg" "c" 10 10)))
  = [ {| called := js_function 1;
         argv0 := Some "Unsupported input file type";
         argv1 := None |} ].
Proof. vm_compute. reflexivity. Qed.
